(** * molten: the request router and the query-parameter accessor

    A shallow embedding of [molten/router.py] and
    [molten/http/query_params.py].  Python values are modelled as follows:
    - [str] is [string]; a character is an [ascii], so the model covers
      strings whose code points are below 256;
    - a [dict] is a [gmap]; a [defaultdict(list)] is a [gmap] together with
      the lookup [dd_getitem], which stores an empty list under a key that
      is missing, as Python does;
    - a method that mutates [self] takes the object and returns the new one;
      a method that may raise returns the object as it is at that point
      together with [Some] exception;
    - the [re] module of the standard library is modelled for the fragment
      of the pattern language described in [Module Re]. *)

From Stdlib Require Import Ascii String.
From stdpp Require Import base option list strings gmap fin_maps.

(** ** Python strings *)

Module Py.

(** [s.startswith(c)] for a one-character [c]. *)
Definition startswith (s : string) (c : ascii) : bool :=
  match s with
  | String a _ => bool_decide (a = c)
  | EmptyString => false
  end.

(** [s.endswith(c)] for a one-character [c]. *)
Fixpoint endswith (s : string) (c : ascii) : bool :=
  match s with
  | EmptyString => false
  | String a EmptyString => bool_decide (a = c)
  | String _ s' => endswith s' c
  end.

(** [s[1:]] *)
Definition drop_first (s : string) : string :=
  match s with
  | String _ s' => s'
  | EmptyString => EmptyString
  end.

(** [s[:-1]] *)
Fixpoint drop_last (s : string) : string :=
  match s with
  | EmptyString => EmptyString
  | String _ EmptyString => EmptyString
  | String a s' => String a (drop_last s')
  end.

(** [s[1:-1]] *)
Definition slice_1_m1 (s : string) : string := drop_last (drop_first s).

(** [s.split(sep)] for a one-character separator: the result is never
    empty, and has one more element than [s] has separators. *)
Fixpoint split (sep : ascii) (s : string) : list string :=
  match s with
  | EmptyString => [EmptyString]
  | String a s' =>
      if bool_decide (a = sep) then EmptyString :: split sep s'
      else match split sep s' with
           | h :: t => String a h :: t
           | [] => [String a EmptyString]
           end
  end.

(** [l[1:]] on lists *)
Definition list_drop_first {A} (l : list A) : list A := drop 1 l.

(** [d[k]] on a [defaultdict(list)]: a missing key is first bound to the
    empty list. *)
Definition dd_getitem {A} (d : gmap string (list A)) (k : string)
  : gmap string (list A) * list A :=
  match d !! k with
  | Some l => (d, l)
  | None => (<[k := []]> d, [])
  end.

(** [d[k].insert(0, x)] on a [defaultdict(list)]. *)
Definition dd_insert_front {A} (d : gmap string (list A)) (k : string) (x : A)
  : gmap string (list A) :=
  let '(d', l) := dd_getitem d k in <[k := x :: l]> d'.

End Py.

(** ** The [re] module

    The patterns that the router builds are handed to Python's [re.compile]
    and used through [Pattern.match] and [Match.groupdict].  The model
    covers this fragment of the pattern language (no flags):
    - an ordinary character matches itself; [.] matches any character but
      a newline; [[abc]] and [[^abc]] are sets of ordinary characters;
    - [*], [+] and [?] are the greedy repetitions of the single-character
      item before them;
    - [(...)] is a group and [(?P<name>...)] a named group;
    - [^] matches at the start of the subject, [$] at its end and also just
      before a newline that is its last character.
    [compile] answers [Unsupported] on anything else, and [error] only
    where [re.compile] raises [re.error]; the message of an [error] is the
    [msg] of that exception. *)

Module Re.

Inductive atom :=
| AChar (c : ascii)
| AAny
| ASet (negated : bool) (cs : list ascii).

Inductive quant := QOne | QStar | QPlus | QOpt.

#[warnings="-register-all"]
Inductive node :=
| NAtom (a : atom) (q : quant)
| NBol
| NEol
| NGroup (name : option string) (body : list node).

(** A compiled pattern: the sequence of its items. *)
Definition Pattern := list node.

Inductive compile_result :=
| Compiled (p : Pattern)
| error (msg : string)
| Unsupported.

Inductive failure := Ferror (msg : string) | Funsupported.

(** *** Parsing, one character at a time *)

Inductive mode :=
| MNormal
| MOpen                                  (* after "("    *)
| MOpenQ                                 (* after "(?"   *)
| MOpenQP                                (* after "(?P"  *)
| MName (acc : string)                   (* after "(?P<" *)
| MSet0                                  (* after "["    *)
| MSet (negated : bool) (acc : list ascii).

(** [p_cur] holds the items of the innermost open sequence, last first;
    [p_open] holds, for every open group from the innermost outwards, its
    name and the items that precede it in the enclosing sequence;
    [p_names] are the group names defined so far. *)
Record pstate := {
  p_mode : mode;
  p_cur : list node;
  p_open : list (option string * list node);
  p_names : list string
}.

Definition init : pstate :=
  {| p_mode := MNormal; p_cur := []; p_open := []; p_names := [] |}.

Definition is_alpha_ (c : ascii) : bool :=
  let n := nat_of_ascii c in
  ((65 <=? n) && (n <=? 90) || (97 <=? n) && (n <=? 122) || (n =? 95))%nat.

Definition is_digit (c : ascii) : bool :=
  let n := nat_of_ascii c in ((48 <=? n) && (n <=? 57))%nat.

Definition is_ascii (c : ascii) : bool := (nat_of_ascii c <? 128)%nat.

Fixpoint forallb_str (f : ascii -> bool) (s : string) : bool :=
  match s with
  | EmptyString => true
  | String c s' => f c && forallb_str f s'
  end.

(** [str.isidentifier] on a string of ASCII characters. *)
Definition isidentifier (s : string) : bool :=
  match s with
  | EmptyString => false
  | String c s' => is_alpha_ c && forallb_str (fun x => is_alpha_ x || is_digit x) s'
  end.

(** Characters with a meaning of their own in a pattern. *)
Definition special : list ascii :=
  ["."; "^"; "$"; "*"; "+"; "?"; "{"; "}"; "["; "]"; "\"; "|"; "("; ")"]%char.

(** Characters that the model does not take as members of a set. *)
Definition set_special : list ascii :=
  ["\"; "-"; "["; "]"; "^"; "&"; "|"; "~"]%char.

Definition push (st : pstate) (n : node) : pstate :=
  {| p_mode := MNormal; p_cur := n :: p_cur st;
     p_open := p_open st; p_names := p_names st |}.

Definition set_mode (st : pstate) (m : mode) : pstate :=
  {| p_mode := m; p_cur := p_cur st;
     p_open := p_open st; p_names := p_names st |}.

Definition open_group (st : pstate) (name : option string) : pstate :=
  {| p_mode := MNormal; p_cur := [];
     p_open := (name, p_cur st) :: p_open st;
     p_names := match name with
                | Some n => n :: p_names st
                | None => p_names st
                end |}.

Definition quantify (st : pstate) (q : quant) : pstate + failure :=
  match p_cur st with
  | NAtom a QOne :: rest =>
      inl {| p_mode := MNormal; p_cur := NAtom a q :: rest;
             p_open := p_open st; p_names := p_names st |}
  | _ => inr Funsupported
  end.

Definition step_normal (st : pstate) (c : ascii) : pstate + failure :=
  if bool_decide (c = "("%char) then inl (set_mode st MOpen)
  else if bool_decide (c = ")"%char) then
    match p_open st with
    | [] => inr (Ferror "unbalanced parenthesis")
    | (name, outer) :: rest =>
        inl {| p_mode := MNormal;
               p_cur := NGroup name (rev (p_cur st)) :: outer;
               p_open := rest; p_names := p_names st |}
    end
  else if bool_decide (c = "["%char) then inl (set_mode st MSet0)
  else if bool_decide (c = "."%char) then inl (push st (NAtom AAny QOne))
  else if bool_decide (c = "^"%char) then inl (push st NBol)
  else if bool_decide (c = "$"%char) then inl (push st NEol)
  else if bool_decide (c = "*"%char) then quantify st QStar
  else if bool_decide (c = "+"%char) then quantify st QPlus
  else if bool_decide (c = "?"%char) then quantify st QOpt
  else if bool_decide (c ∈ special) then inr Funsupported
  else inl (push st (NAtom (AChar c) QOne)).

(** [str(n)] for a natural number. *)
Fixpoint decimal_go (fuel n : nat) (acc : string) : string :=
  match fuel with
  | 0 => acc
  | S fuel' =>
      let acc' := String (ascii_of_nat (48 + n mod 10)) acc in
      if (n / 10 =? 0)%nat then acc' else decimal_go fuel' (n / 10) acc'
  end.

Definition decimal (n : nat) : string := decimal_go (S n) n "".

Definition hex_digit (n : nat) : ascii :=
  if (n <? 10)%nat then ascii_of_nat (48 + n) else ascii_of_nat (87 + n).

Definition quote1 : ascii := "'"%char.
Definition quote2 : ascii := ascii_of_nat 34.

Fixpoint occurs_str (c : ascii) (s : string) : bool :=
  match s with
  | EmptyString => false
  | String a s' => bool_decide (a = c) || occurs_str c s'
  end.

Definition repr_char (quote c : ascii) : string :=
  let n := nat_of_ascii c in
  if bool_decide (c = quote) || bool_decide (c = "\"%char) then
    String "\" (String c "")
  else if (n =? 9)%nat then "\t"
  else if (n =? 10)%nat then "\n"
  else if (n =? 13)%nat then "\r"
  else if ((n <? 32) || (n =? 127))%nat then
    String "\" (String "x" (String (hex_digit (n / 16))
                               (String (hex_digit (n mod 16)) "")))
  else String c "".

Fixpoint repr_body (quote : ascii) (s : string) : string :=
  match s with
  | EmptyString => String quote ""
  | String c s' => repr_char quote c +:+ repr_body quote s'
  end.

(** [repr(s)] for a string of ASCII characters: in single quotes, or in
    double quotes when [s] holds a single quote and no double quote. *)
Definition repr (s : string) : string :=
  let quote :=
    if occurs_str quote1 s && negb (occurs_str quote2 s) then quote2
    else quote1 in
  String quote (repr_body quote s).

(** The groups of a pattern in the order in which they open, each with its
    name if it has one: the group that opens as the [n]th is group [n]. *)
Fixpoint node_groups (nd : node) : list (option string) :=
  match nd with
  | NGroup name body =>
      name :: (fix go (l : list node) : list (option string) :=
                 match l with
                 | [] => []
                 | x :: l' => node_groups x ++ go l'
                 end) body
  | _ => []
  end.

Definition nodes_groups (l : list node) : list (option string) :=
  concat (map node_groups l).

(** The groups opened so far, closed or not, in the order of opening. *)
Definition opened (st : pstate) : list (option string) :=
  concat (map (λ frame, nodes_groups (rev frame.2) ++ [frame.1])
              (rev (p_open st)))
  ++ nodes_groups (rev (p_cur st)).

Definition group_number (st : pstate) (name : string) : nat :=
  match list_find (λ g, g = Some name) (opened st) with
  | Some (i, _) => S i
  | None => 0
  end.

Definition close_name (st : pstate) (name : string) : pstate + failure :=
  if bool_decide (name = "") then inr (Ferror "missing group name")
  else if negb (forallb_str is_ascii name) then inr Funsupported
  else if negb (isidentifier name) then
    inr (Ferror ("bad character in group name " +:+ repr name))
  else if bool_decide (name ∈ p_names st) then
    inr (Ferror ("redefinition of group name " +:+ repr name
                 +:+ " as group " +:+ decimal (S (length (opened st)))
                 +:+ "; was group " +:+ decimal (group_number st name)))
  else inl (open_group st (Some name)).

Definition step_set (st : pstate) (negated : bool) (acc : list ascii)
    (c : ascii) : pstate + failure :=
  if bool_decide (c = "]"%char) then
    match acc with
    | [] => inr Funsupported
    | _ => inl (push st (NAtom (ASet negated acc) QOne))
    end
  else if bool_decide (c ∈ set_special) then inr Funsupported
  else inl (set_mode st (MSet negated (acc ++ [c]))).

Definition step (st : pstate) (c : ascii) : pstate + failure :=
  match p_mode st with
  | MNormal => step_normal st c
  | MOpen =>
      if bool_decide (c = "?"%char) then inl (set_mode st MOpenQ)
      else step_normal (open_group st None) c
  | MOpenQ =>
      if bool_decide (c = "P"%char) then inl (set_mode st MOpenQP)
      else inr Funsupported
  | MOpenQP =>
      if bool_decide (c = "<"%char) then inl (set_mode st (MName ""))
      else inr Funsupported
  | MName acc =>
      if bool_decide (c = ">"%char) then close_name st acc
      else if bool_decide (c = "\"%char) then inr Funsupported
      else inl (set_mode st (MName (acc +:+ String c "")))
  | MSet0 =>
      if bool_decide (c = "^"%char) then inl (set_mode st (MSet true []))
      else step_set st false [] c
  | MSet negated acc => step_set st negated acc c
  end.

Fixpoint parse_from (st : pstate) (s : string) : pstate + failure :=
  match s with
  | EmptyString => inl st
  | String c s' =>
      match step st c with
      | inl st' => parse_from st' s'
      | inr f => inr f
      end
  end.

Definition finish (st : pstate) : compile_result :=
  match p_mode st with
  | MNormal =>
      match p_open st with
      | [] => Compiled (rev (p_cur st))
      | _ :: _ => error "missing ), unterminated subpattern"
      end
  | MOpen => error "missing ), unterminated subpattern"
  | MOpenQ | MOpenQP => error "unexpected end of pattern"
  | MName acc =>
      if bool_decide (acc = "") then error "missing group name"
      else error "missing >, unterminated name"
  | MSet0 | MSet _ _ => error "unterminated character set"
  end.

(** [re.compile(pattern)] *)
Definition compile (pattern : string) : compile_result :=
  match parse_from init pattern with
  | inl st => finish st
  | inr (Ferror msg) => error msg
  | inr Funsupported => Unsupported
  end.

(** *** Matching, by backtracking *)

(** The value of [Match.groupdict()]. *)
Abbreviation groupdict := (gmap string string).

Definition cont := string -> groupdict -> option groupdict.

Definition newline : ascii := "010"%char.

Definition atom_ok (a : atom) (c : ascii) : bool :=
  match a with
  | AChar x => bool_decide (c = x)
  | AAny => negb (bool_decide (c = newline))
  | ASet negated cs => xorb negated (bool_decide (c ∈ cs))
  end.

(** A greedy repetition takes as many characters as it can and gives them
    back one at a time while the rest of the pattern fails. *)
Fixpoint m_star (a : atom) (s : string) (g : groupdict) (k : cont)
  : option groupdict :=
  match s with
  | String c s' =>
      if atom_ok a c then
        match m_star a s' g k with
        | Some r => Some r
        | None => k s g
        end
      else k s g
  | EmptyString => k s g
  end.

Definition m_atom (a : atom) (q : quant) (s : string) (g : groupdict)
    (k : cont) : option groupdict :=
  match q, s with
  | QOne, String c s' => if atom_ok a c then k s' g else None
  | QOne, EmptyString => None
  | QPlus, String c s' => if atom_ok a c then m_star a s' g k else None
  | QPlus, EmptyString => None
  | QStar, _ => m_star a s g k
  | QOpt, String c s' =>
      if atom_ok a c then
        match k s' g with
        | Some r => Some r
        | None => k s g
        end
      else k s g
  | QOpt, EmptyString => k s g
  end.

(** [$] without the MULTILINE flag. *)
Definition at_end (s : string) : bool :=
  match s with
  | EmptyString => true
  | String c EmptyString => bool_decide (c = newline)
  | _ => false
  end.

Fixpoint take (n : nat) (s : string) : string :=
  match n, s with
  | S n', String c s' => String c (take n' s')
  | _, _ => EmptyString
  end.

(** The text between the place [s] where a group was entered and the place
    [s'] where it was left, both given as the rest of the subject. *)
Definition captured (s s' : string) : string :=
  take (String.length s - String.length s') s.

Definition set_group (name : option string) (v : string) (g : groupdict)
  : groupdict :=
  match name with
  | Some n => <[n := v]> g
  | None => g
  end.

(** [n0] is the length of the subject: [^] matches where nothing has been
    consumed. *)
Fixpoint m_node (n0 : nat) (nd : node) (s : string) (g : groupdict)
    (k : cont) {struct nd} : option groupdict :=
  match nd with
  | NAtom a q => m_atom a q s g k
  | NBol => if bool_decide (String.length s = n0) then k s g else None
  | NEol => if at_end s then k s g else None
  | NGroup name body =>
      (fix go (l : list node) (s1 : string) (g1 : groupdict) (k1 : cont)
           {struct l} : option groupdict :=
         match l with
         | [] => k1 s1 g1
         | x :: l' => m_node n0 x s1 g1 (fun s2 g2 => go l' s2 g2 k1)
         end) body s g
        (fun s' g' => k s' (set_group name (captured s s') g'))
  end.

Fixpoint m_seq (n0 : nat) (l : list node) (s : string) (g : groupdict)
    (k : cont) : option groupdict :=
  match l with
  | [] => k s g
  | x :: l' => m_node n0 x s g (fun s2 g2 => m_seq n0 l' s2 g2 k)
  end.

(** [p.match(subject)] followed by [.groupdict()]; [None] when there is no
    match. *)
Definition match_ (p : Pattern) (subject : string) : option groupdict :=
  m_seq (String.length subject) p subject ∅ (fun _ g => Some g).

End Re.

(** ** The template compiler *)

Definition compile_segment (segment : string) : string :=
  if Py.startswith segment "{" && Py.endswith segment "}" then
    let segment_name := Py.slice_1_m1 segment in
    "/(?P<" +:+ segment_name +:+ ">[^/]+)"
  else
    "/" +:+ segment.

(** [_compile_route_template(template)] *)
Definition _compile_route_template (template : string) : Re.compile_result :=
  let re_template :=
    fold_left (fun re_template segment => re_template +:+ compile_segment segment)
              (Py.list_drop_first (Py.split "/" template)) "" in
  Re.compile ("^" +:+ re_template +:+ "$").

(** ** Routes and route groups *)

(** A handler is an opaque callable: the router reads its [__name__] and
    nothing else; [fn_id] stands for the identity of the object. *)
Record Callable := { __name__ : string; fn_id : nat }.

Record Route := {
  template : string;
  handler : Callable;
  method : string;
  name : string
}.

(** [x or y] where [x] is an optional string: [None] and the empty string
    are both false. *)
Definition or_ (x : option string) (y : string) : string :=
  match x with
  | Some v => if bool_decide (v = "") then y else v
  | None => y
  end.

(** [Route(template, handler, method="GET", name=None)]; an omitted keyword
    argument is [None]. *)
Definition Route_init (template : string) (handler : Callable)
    (method : option string) (name : option string) : Route :=
  {| template := template;
     handler := handler;
     method := default "GET" method;
     name := or_ name (__name__ handler) |}.

(** [RouteLike = Union[Route, Include]]; [Include prefix routes] is
    [Include(prefix, routes)]. *)
#[warnings="-register-all"]
Inductive RouteLike :=
| Route_ (route : Route)
| Include (prefix : string) (routes : list RouteLike).

(** ** The router *)

(** [NotModelled] is not a Python exception: it ends a run in which
    [re.compile] is given a pattern outside the modelled fragment. *)
Inductive exn :=
| ValueError (msg : string)
| re_error (msg : string)
| NotModelled.

Record Router := {
  _routes_by_name : gmap string Route;
  _routes_by_method : gmap string (list Route);
  _route_res_by_method : gmap string (list Re.Pattern)
}.

Definition Router_empty : Router :=
  {| _routes_by_name := ∅; _routes_by_method := ∅; _route_res_by_method := ∅ |}.

(** The [Route] branch of [add_route]. *)
Definition add_route_Route (self : Router) (route : Route) (prefix : string)
  : Router * option exn :=
  if bool_decide (is_Some (_routes_by_name self !! name route)) then
    (self, Some (ValueError
       ("a route named " +:+ name route +:+ " is already registered")))
  else
    let by_name := <[name route := route]> (_routes_by_name self) in
    let by_method :=
      Py.dd_insert_front (_routes_by_method self) (method route) route in
    let '(res, route_res) :=
      Py.dd_getitem (_route_res_by_method self) (method route) in
    match _compile_route_template (prefix +:+ template route) with
    | Re.Compiled p =>
        ({| _routes_by_name := by_name;
            _routes_by_method := by_method;
            _route_res_by_method := <[method route := p :: route_res]> res |},
         None)
    | Re.error msg =>
        ({| _routes_by_name := by_name;
            _routes_by_method := by_method;
            _route_res_by_method := res |},
         Some (re_error msg))
    | Re.Unsupported =>
        ({| _routes_by_name := by_name;
            _routes_by_method := by_method;
            _route_res_by_method := res |},
         Some NotModelled)
    end.

(** [Router.add_route(route_like, prefix)] *)
Fixpoint add_route (self : Router) (route_like : RouteLike) (prefix : string)
    {struct route_like} : Router * option exn :=
  match route_like with
  | Include inc_prefix routes =>
      (fix add_all (self : Router) (route_likes : list RouteLike)
         : Router * option exn :=
         match route_likes with
         | [] => (self, None)
         | route_like :: rest =>
             match add_route self route_like (prefix +:+ inc_prefix) with
             | (self', None) => add_all self' rest
             | raised => raised
             end
         end) self routes
  | Route_ route => add_route_Route self route prefix
  end.

(** [Router.add_routes(route_likes, prefix)] *)
Fixpoint add_routes (self : Router) (route_likes : list RouteLike)
    (prefix : string) : Router * option exn :=
  match route_likes with
  | [] => (self, None)
  | route_like :: rest =>
      match add_route self route_like prefix with
      | (self', None) => add_routes self' rest prefix
      | raised => raised
      end
  end.

(** [Router(routes)]: [routes or []] is registered in a new router. *)
Definition Router_init (routes : option (list RouteLike))
  : Router * option exn :=
  add_routes Router_empty (default [] routes) "".

(** The loop of [match] over [zip(routes, route_res)]. *)
Fixpoint first_match (pairs : list (Route * Re.Pattern)) (path : string)
  : option (Route * Re.groupdict) :=
  match pairs with
  | [] => None
  | (route, route_re) :: rest =>
      match Re.match_ route_re path with
      | Some params => Some (route, params)
      | None => first_match rest path
      end
  end.

(** [Router.match(method, path)]; reading the two [defaultdict]s may add an
    empty list to each. *)
Definition match_ (self : Router) (method path : string)
  : Router * option (Route * Re.groupdict) :=
  let '(by_method, routes) := Py.dd_getitem (_routes_by_method self) method in
  let '(res, route_res) := Py.dd_getitem (_route_res_by_method self) method in
  ({| _routes_by_name := _routes_by_name self;
      _routes_by_method := by_method;
      _route_res_by_method := res |},
   first_match (zip routes route_res) path).

(** ** Query parameters *)

Module QueryParams.

(** Modelled from the spec: the base class [MultiDict] of [molten/common.py]
    is not among the sources.  The spec describes the mapping as one from a
    parameter name to the list of its values, in insertion order;
    [__getitem__] below recovers from [IndexError] and from nothing else, so
    reading a missing key has to give the empty list: [_data] is a
    [defaultdict(list)], as the two indices of the router are. *)
Record t := { _data : gmap string (list string) }.

Inductive exn := ParamMissing (name : string).

(** [self[name]] *)
Definition __getitem__ (self : t) (name : string) : t * (string + exn) :=
  let '(data, values) := Py.dd_getitem (_data self) name in
  match last values with
  | Some v => ({| _data := data |}, inl v)
  | None => ({| _data := data |}, inr (ParamMissing name))
  end.

(** [self.get(name, default)] *)
Definition get (self : t) (name : string) (default : option string)
  : t * option string :=
  match __getitem__ self name with
  | (self', inl v) => (self', Some v)
  | (self', inr (ParamMissing _)) => (self', default)
  end.

End QueryParams.

(** * Definitions for the statements *)

(** The message of the [ValueError] for a name that is taken. *)
Definition duplicate_msg (route : Route) : string :=
  "a route named " +:+ name route +:+ " is already registered".

(** ** Matching against the registered routes *)

(** The pairs that [match] walks through for a method. *)
Definition pairs (self : Router) (method : string) : list (Route * Re.Pattern) :=
  zip (default [] (_routes_by_method self !! method))
      (default [] (_route_res_by_method self !! method)).

(** ** Routers that the program can build *)

Inductive built : Router → Prop :=
| built_empty : built Router_empty
| built_add_route self route_like prefix :
    built self → built (add_route self route_like prefix).1
| built_add_routes self route_likes prefix :
    built self → built (add_routes self route_likes prefix).1
| built_match self method path :
    built self → built (match_ self method path).1.

(** Every route filed under a method has that method. *)
Definition methods_ok (self : Router) : Prop :=
  ∀ m routes, _routes_by_method self !! m = Some routes →
    Forall (λ route, method route = m) routes.

(** ** Groups *)

(** The spec's reading of registration: a group is flattened into its
    routes, each with the prefix under which it is registered. *)
Fixpoint flatten (route_like : RouteLike) (prefix : string)
  : list (Route * string) :=
  match route_like with
  | Route_ route => [(route, prefix)]
  | Include inc_prefix routes =>
      (fix go (l : list RouteLike) : list (Route * string) :=
         match l with
         | [] => []
         | x :: l' => flatten x (prefix +:+ inc_prefix) ++ go l'
         end) routes
  end.

Definition flatten_all (route_likes : list RouteLike) (prefix : string)
  : list (Route * string) :=
  concat (map (λ x, flatten x prefix) route_likes).

(** Registering flattened routes one after the other, up to the first
    that raises. *)
Fixpoint add_flat (self : Router) (l : list (Route * string))
  : Router * option exn :=
  match l with
  | [] => (self, None)
  | (route, prefix) :: rest =>
      match add_route_Route self route prefix with
      | (self', None) => add_flat self' rest
      | raised => raised
      end
  end.

(** [occurs route_like prefixes route]: [route] is an entry of [route_like],
    inside groups whose prefixes are [prefixes], the outermost first. *)
Inductive occurs : RouteLike → list string → Route → Prop :=
| occurs_route route : occurs (Route_ route) [] route
| occurs_include prefix routes x prefixes route :
    x ∈ routes → occurs x prefixes route →
    occurs (Include prefix routes) (prefix :: prefixes) route.

(** [p1 + p2 + ... + pn] *)
Definition join (l : list string) : string := foldr String.append "" l.

(** ** Templates made of literal segments and placeholders *)

Inductive segment :=
| Literal (text : string)
| Placeholder (name : string).

Definition sep : ascii := "/"%char.

(** A character of a literal segment that stands for itself in a pattern. *)
Definition plain_char (c : ascii) : bool :=
  negb (bool_decide (c ∈ Re.special)) && negb (bool_decide (c = sep)).

Definition no_sep (s : string) : bool :=
  Re.forallb_str (λ c, negb (bool_decide (c = sep))) s.

Definition segment_ok (sg : segment) : bool :=
  match sg with
  | Literal text => Re.forallb_str plain_char text
  | Placeholder name => Re.isidentifier name
  end.

Definition placeholders (segs : list segment) : list string :=
  omap (λ sg, match sg with
              | Placeholder name => Some name
              | Literal _ => None
              end) segs.

(** Literal segments hold plain characters only, placeholder names are
    identifiers, and no name is used twice. *)
Definition well_formed (segs : list segment) : bool :=
  forallb segment_ok segs && bool_decide (NoDup (placeholders segs)).

Definition segment_text (sg : segment) : string :=
  match sg with
  | Literal text => text
  | Placeholder name => "{" +:+ name +:+ "}"
  end.

(** The template string of a list of segments. *)
Definition render (segs : list segment) : string :=
  join (map (λ sg, "/" +:+ segment_text sg) segs).

(** What [{name}] compiles to. *)
Definition group_node (name : string) : Re.node :=
  Re.NGroup (Some name) [Re.NAtom (Re.ASet true [sep]) Re.QPlus].

Fixpoint literal_nodes (text : string) : list Re.node :=
  match text with
  | EmptyString => []
  | String c text' => Re.NAtom (Re.AChar c) Re.QOne :: literal_nodes text'
  end.

Definition segment_nodes (sg : segment) : list Re.node :=
  Re.NAtom (Re.AChar sep) Re.QOne ::
  match sg with
  | Literal text => literal_nodes text
  | Placeholder name => [group_node name]
  end.

Definition template_nodes (segs : list segment) : list Re.node :=
  concat (map segment_nodes segs).

Definition not_special (c : ascii) : bool := negb (bool_decide (c ∈ Re.special)).

(** ** Matching a well-formed template, segment by segment *)

Fixpoint strip_prefix (p s : string) : option string :=
  match p, s with
  | EmptyString, _ => Some s
  | String a p', String b s' =>
      if bool_decide (b = a) then strip_prefix p' s' else None
  | String _ _, EmptyString => None
  end.

(** The longest prefix without a separator, and what follows it. *)
Fixpoint span_no_sep (s : string) : string * string :=
  match s with
  | EmptyString => (EmptyString, EmptyString)
  | String c s' =>
      if bool_decide (c = sep) then (EmptyString, s)
      else let '(v, rest) := span_no_sep s' in (String c v, rest)
  end.

(** A matcher written by hand, without backtracking: what the compiled
    pattern of a well-formed template computes. *)
Fixpoint walk (segs : list segment) (s : string) (g : Re.groupdict)
  : option Re.groupdict :=
  match segs with
  | [] => if Re.at_end s then Some g else None
  | Literal text :: segs' =>
      match strip_prefix (String sep text) s with
      | Some rest => walk segs' rest g
      | None => None
      end
  | Placeholder name :: segs' =>
      match s with
      | String c s1 =>
          if bool_decide (c = sep) then
            let '(v, rest) := span_no_sep s1 in
            if bool_decide (v = "") then None
            else walk segs' rest (<[name := v]> g)
          else None
      | EmptyString => None
      end
  end.

(** Nothing, or a separator, comes next. *)
Definition boundary (s : string) : bool :=
  match s with
  | EmptyString => true
  | String c _ => bool_decide (c = sep)
  end.

Definition accept : Re.cont := λ _ g, Some g.

(** ** What a well-formed template accepts *)

(** [conforms segs path caps]: [path] is made of one piece per segment, each
    after a separator; the piece of a literal segment is its text, the
    piece of a placeholder is any non-empty string without a separator, and
    [caps] lists the placeholder names with their pieces. *)
Inductive conforms : list segment → string → list (string * string) → Prop :=
| conforms_nil : conforms [] "" []
| conforms_literal text segs rest caps :
    conforms segs rest caps →
    conforms (Literal text :: segs) (String sep (text +:+ rest)) caps
| conforms_placeholder name v segs rest caps :
    v ≠ "" → no_sep v = true → conforms segs rest caps →
    conforms (Placeholder name :: segs) (String sep (v +:+ rest))
             ((name, v) :: caps).

Definition ends_with_placeholder (segs : list segment) : bool :=
  match last segs with
  | Some (Placeholder _) => true
  | _ => false
  end.

Definition bind (caps : list (string * string)) (g : Re.groupdict)
  : Re.groupdict :=
  foldl (λ g nv, <[nv.1 := nv.2]> g) g caps.

(** The paths that the matcher of a well-formed template accepts, with the
    parameters it returns: the paths that conform and, when the template
    does not end with a placeholder, those followed by one newline. *)
Definition accepts (segs : list segment) (path : string)
    (params : Re.groupdict) : Prop :=
  ∃ caps, params = list_to_map caps ∧
    (conforms segs path caps ∨
     (ends_with_placeholder segs = false ∧
      ∃ path', path = path' +:+ String Re.newline "" ∧
               conforms segs path' caps)).

(** *** A placeholder inside a template *)

Fixpoint count_sep (s : string) : nat :=
  match s with
  | EmptyString => 0
  | String c s' => (if bool_decide (c = sep) then 1 else 0) + count_sep s'
  end.

(** ** Batches of registrations *)

(** The names of flattened routes, in the order of registration. *)
Definition flat_names (flat : list (Route * string)) : list string :=
  map (λ rp, name rp.1) flat.

(** The flattened routes of a method, in the order of registration, each
    with the pattern of its prefix and template. *)
Definition compiled_pairs (flat : list (Route * string)) (m : string)
  : list (Route * Re.Pattern) :=
  omap (λ rp,
          if bool_decide (method rp.1 = m) then
            match _compile_route_template (rp.2 +:+ template rp.1) with
            | Re.Compiled p => Some (rp.1, p)
            | _ => None
            end
          else None) flat.

(** The two lists of every method have one length. *)
Definition in_sync (self : Router) : Prop :=
  ∀ m, length (default [] (_routes_by_method self !! m))
       = length (default [] (_route_res_by_method self !! m)).

(** A character that goes into a group name as it stands: not the [>]
    that ends the name, and not a backslash. *)
Definition name_char (c : ascii) : bool :=
  negb (bool_decide (c = ">"%char)) && negb (bool_decide (c = "\"%char)).

(** The text of the segment holds no separator. *)
Definition text_no_sep (sg : segment) : bool := no_sep (segment_text sg).

(** Every route filed under a method is in the name index, under its
    name. *)
Definition indexed (self : Router) : Prop :=
  ∀ m routes route, _routes_by_method self !! m = Some routes →
    route ∈ routes → _routes_by_name self !! name route = Some route.

(** ** Placeholders in any template *)

(** [template.split("/")[1:]]: the segments that [_compile_route_template]
    goes through. *)
Definition segments_of (template : string) : list string :=
  Py.list_drop_first (Py.split "/" template).

(** [occurs_in x l]: the node [x] is an item of the pattern [l], or of the
    body of a group of [l], at any depth. *)
Inductive occurs_in (x : Re.node) : list Re.node → Prop :=
| occurs_in_here l : x ∈ l → occurs_in x l
| occurs_in_group name body l :
    Re.NGroup name body ∈ l → occurs_in x body → occurs_in x l.

(** The names of the groups of a pattern, in the order of opening. *)
Definition group_names (l : list Re.node) : list string :=
  omap id (Re.nodes_groups l).

(** What the parser has read holds the node [x]: among the items of the
    open sequence, or among those that came before an open group. *)
Definition occ_state (x : Re.node) (st : Re.pstate) : Prop :=
  occurs_in x (Re.p_cur st) ∨
  ∃ frame, frame ∈ Re.p_open st ∧ occurs_in x frame.2.

(** The names that the parser has recorded are those of the groups that it
    has opened, and none is recorded twice. *)
Definition names_state (st : Re.pstate) : Prop :=
  omap id (Re.opened st) ≡ₚ Re.p_names st ∧ NoDup (Re.p_names st).

(** A character that the parser takes as a member of a set. *)
Definition set_plain (c : ascii) : bool :=
  negb (bool_decide (c = "]"%char)) && negb (bool_decide (c ∈ Re.set_special)).

(** ** Concrete inputs *)

Definition view_a : Callable := {| __name__ := "view_a"; fn_id := 1 |}.
Definition view_b : Callable := {| __name__ := "view_b"; fn_id := 2 |}.
Definition view_c : Callable := {| __name__ := "view_c"; fn_id := 3 |}.

Definition route_a : Route := Route_init "/x" view_a None None.
Definition route_b : Route := Route_init "/x" view_b None None.
Definition route_c : Route := Route_init "/y" view_c (Some "POST") None.
Definition route_a' : Route := Route_init "/z" view_b (Some "POST") (Some "view_a").

Definition router_a : Router := (add_routes Router_empty [Route_ route_a] "").1.

Definition router_post : Router :=
  (add_routes Router_empty [Route_ (Route_init "/x" view_a (Some "POST") None)] "").1.

Definition params_ab : QueryParams.t :=
  {| QueryParams._data := {[ "a" := ["1"; "2"]; "b" := ["3"] ]} |}.

Definition route_user : Route := Route_init "/users/{id}" view_a (Some "GET") None.

Definition router_v1 : Router * option exn :=
  add_route Router_empty (Include "/api" [Route_ route_user]) "/v1".

Definition items_pattern : Re.Pattern :=
  Re.NBol :: template_nodes [Literal "items"; Placeholder "name"] ++ [Re.NEol].

(** The pattern of ["/{a>b}"]: the text ["^/(?P<a>b>[^/]+)$"]. *)
Definition a_gt_b_pattern : Re.Pattern :=
  [Re.NBol; Re.NAtom (Re.AChar "/") Re.QOne;
   Re.NGroup (Some "a")
     [Re.NAtom (Re.AChar "b") Re.QOne; Re.NAtom (Re.AChar ">") Re.QOne;
      Re.NAtom (Re.ASet true ["/"%char]) Re.QPlus];
   Re.NEol].

(** The pattern of ["/v1.0/{name}"]. *)
Definition v1_0_pattern : Re.Pattern :=
  [Re.NBol; Re.NAtom (Re.AChar "/") Re.QOne;
   Re.NAtom (Re.AChar "v") Re.QOne; Re.NAtom (Re.AChar "1") Re.QOne;
   Re.NAtom Re.AAny Re.QOne; Re.NAtom (Re.AChar "0") Re.QOne;
   Re.NAtom (Re.AChar "/") Re.QOne;
   Re.NGroup (Some "name") [Re.NAtom (Re.ASet true ["/"%char]) Re.QPlus];
   Re.NEol].

Definition x_pattern : Re.Pattern :=
  [Re.NBol; Re.NAtom (Re.AChar "/") Re.QOne; Re.NAtom (Re.AChar "x") Re.QOne;
   Re.NEol].

Definition a_dot_b_pattern : Re.Pattern :=
  [Re.NBol; Re.NAtom (Re.AChar "/") Re.QOne; Re.NAtom (Re.AChar "a") Re.QOne;
   Re.NAtom Re.AAny Re.QOne; Re.NAtom (Re.AChar "b") Re.QOne; Re.NEol].

Definition a_plus_b_pattern : Re.Pattern :=
  [Re.NBol; Re.NAtom (Re.AChar "/") Re.QOne; Re.NAtom (Re.AChar "a") Re.QPlus;
   Re.NAtom (Re.AChar "b") Re.QOne; Re.NEol].

Definition route_bad : Route := Route_init "/{}" view_b None None.

Definition router_bad : Router := (add_route router_a (Route_ route_bad) "").1.

(** * Properties *)

(** ** Python strings *)

Example split_abs : Py.split "/" "/users/{id}" = [""; "users"; "{id}"].
Proof. reflexivity. Qed.

Example split_rel : Py.split "/" "x/y" = ["x"; "y"].
Proof. reflexivity. Qed.

Example split_empty : Py.split "/" "" = [""].
Proof. reflexivity. Qed.

Example slice_ph : Py.slice_1_m1 "{id}" = "id".
Proof. reflexivity. Qed.

(** ** Registration *)

Lemma add_route_Include self p routes prefix :
  add_route self (Include p routes) prefix = add_routes self routes (prefix +:+ p).
Proof.
  simpl. revert self.
  induction routes as [|x l IH]; intros self; simpl; [done|].
  destruct (add_route self x (prefix +:+ p)) as [self' [e|]]; auto.
Qed.

Lemma add_routes_app self l1 l2 prefix :
  add_routes self (l1 ++ l2) prefix =
  match add_routes self l1 prefix with
  | (self', None) => add_routes self' l2 prefix
  | raised => raised
  end.
Proof.
  revert self. induction l1 as [|x l IH]; intros self; simpl; [done|].
  destruct (add_route self x prefix) as [self' [e|]]; auto.
Qed.

Lemma add_routes_raise self l1 x l2 prefix self1 self2 e :
  add_routes self l1 prefix = (self1, None) →
  add_route self1 x prefix = (self2, Some e) →
  add_routes self (l1 ++ x :: l2) prefix = (self2, Some e).
Proof.
  intros H1 H2. rewrite add_routes_app, H1. simpl. by rewrite H2.
Qed.

Lemma add_route_duplicate self route prefix :
  is_Some (_routes_by_name self !! name route) →
  add_route self (Route_ route) prefix
  = (self, Some (ValueError (duplicate_msg route))).
Proof.
  intros H. simpl. unfold add_route_Route.
  by rewrite bool_decide_eq_true_2.
Qed.

(** What a successful registration of one route does. *)
Lemma add_route_Route_ok self route prefix self' :
  add_route_Route self route prefix = (self', None) →
  _routes_by_name self !! name route = None ∧
  ∃ p, _compile_route_template (prefix +:+ template route) = Re.Compiled p ∧
    self' =
    {| _routes_by_name := <[name route := route]> (_routes_by_name self);
       _routes_by_method :=
         <[method route :=
             route :: default [] (_routes_by_method self !! method route)]>
           (_routes_by_method self);
       _route_res_by_method :=
         <[method route :=
             p :: default [] (_route_res_by_method self !! method route)]>
           (_route_res_by_method self) |}.
Proof.
  unfold add_route_Route, Py.dd_insert_front, Py.dd_getitem.
  case_bool_decide as Hn; [done|].
  apply eq_None_not_Some in Hn. intros H. split; [done|].
  destruct (_routes_by_method self !! method route) as [rs|] eqn:Hm;
  destruct (_route_res_by_method self !! method route) as [ps|] eqn:Hr;
  destruct (_compile_route_template (prefix +:+ template route)) as [p| |];
    simplify_eq; eexists; (split; [done|]); simpl;
    rewrite ?insert_insert_eq; done.
Qed.

Lemma add_route_Route_compiled self route prefix p :
  _routes_by_name self !! name route = None →
  _compile_route_template (prefix +:+ template route) = Re.Compiled p →
  ∃ self', add_route_Route self route prefix = (self', None).
Proof.
  intros Hn Hc. unfold add_route_Route.
  rewrite bool_decide_eq_false_2 by (rewrite Hn; by intros [? ?]).
  destruct (Py.dd_getitem _ _) as [res rr]. rewrite Hc. eauto.
Qed.

(** C10: a route built with the name [""] is the route built with the name
    left out, and its name is the [__name__] of the handler. *)
Theorem Route_init_empty_name (template : string) (handler : Callable)
    (method : option string) :
  Route_init template handler method (Some "")
  = Route_init template handler method None ∧
  name (Route_init template handler method (Some "")) = __name__ handler ∧
  name (Route_init template handler method None) = __name__ handler.
Proof. done. Qed.

(** C8: registering a route whose name is taken raises and leaves the
    router as it was before the call; in a batch, the routes before the
    failing one stay registered and none after it is looked at. *)
Theorem duplicate_leaves_router_unchanged (self : Router) (route : Route)
    (prefix : string) :
  is_Some (_routes_by_name self !! name route) →
  add_route self (Route_ route) prefix
  = (self, Some (ValueError (duplicate_msg route))) ∧
  ∀ (self0 : Router) (before after : list RouteLike),
    add_routes self0 before prefix = (self, None) →
    add_routes self0 (before ++ Route_ route :: after) prefix
    = (self, Some (ValueError (duplicate_msg route))).
Proof.
  intros Hdup. split; [by apply add_route_duplicate|].
  intros self0 before after Hb.
  eapply add_routes_raise; [done|]. by apply add_route_duplicate.
Qed.

Lemma duplicate_leaves_router_unchanged_witness :
  is_Some (_routes_by_name router_a !! name route_a') ∧
  add_route router_a (Route_ route_a') ""
  = (router_a, Some (ValueError "a route named view_a is already registered")) ∧
  add_routes Router_empty [Route_ route_a; Route_ route_a'; Route_ route_c] ""
  = (router_a, Some (ValueError "a route named view_a is already registered")).
Proof.
  assert (H : is_Some (_routes_by_name router_a !! name route_a'))
    by (eexists; vm_compute; reflexivity).
  split; [exact H|].
  destruct (duplicate_leaves_router_unchanged router_a route_a' "" H) as [H1 H2].
  split; [exact H1|].
  apply (H2 Router_empty [Route_ route_a] [Route_ route_c]).
  vm_compute. reflexivity.
Defined.

(** C2, as amended: a name that is taken is refused whatever the method and
    the template; two routes with one template and two names, neither
    taken, are both registered when that template compiles. *)
Theorem names_unique_templates_shared :
  (∀ (self : Router) (route : Route) (prefix : string),
     is_Some (_routes_by_name self !! name route) →
     add_route self (Route_ route) prefix
     = (self, Some (ValueError (duplicate_msg route)))) ∧
  (∀ (self : Router) (A B : Route) (prefix : string) (p : Re.Pattern),
     template A = template B →
     name A ≠ name B →
     _routes_by_name self !! name A = None →
     _routes_by_name self !! name B = None →
     _compile_route_template (prefix +:+ template A) = Re.Compiled p →
     ∃ self', add_routes self [Route_ A; Route_ B] prefix = (self', None) ∧
       _routes_by_name self' !! name A = Some A ∧
       _routes_by_name self' !! name B = Some B).
Proof.
  split; [intros; by apply add_route_duplicate|].
  intros self A B prefix p Ht Hn HA HB Hc. simpl.
  destruct (add_route_Route_compiled self A prefix p HA Hc) as [s1 H1].
  rewrite H1.
  destruct (add_route_Route_ok _ _ _ _ H1) as (_ & p1 & _ & ->).
  rewrite Ht in Hc.
  match goal with
  | |- context [add_route_Route ?s B prefix] =>
      destruct (add_route_Route_compiled s B prefix p) as [s2 H2];
        [simpl; by rewrite lookup_insert_ne|exact Hc|]
  end.
  rewrite H2. eexists; split; [done|].
  destruct (add_route_Route_ok _ _ _ _ H2) as (_ & p2 & _ & ->). simpl.
  rewrite lookup_insert_ne, !lookup_insert_eq by done. done.
Qed.

Lemma names_unique_templates_shared_witness :
  add_route router_a (Route_ route_a') "/p"
  = (router_a, Some (ValueError "a route named view_a is already registered")) ∧
  ∃ self', add_routes Router_empty [Route_ route_a; Route_ route_b] ""
           = (self', None) ∧
    _routes_by_name self' !! "view_a" = Some route_a ∧
    _routes_by_name self' !! "view_b" = Some route_b.
Proof.
  destruct names_unique_templates_shared as [H1 H2]. split.
  - apply (H1 router_a route_a' "/p"). eexists; vm_compute; reflexivity.
  - apply (H2 Router_empty route_a route_b ""
              [Re.NBol; Re.NAtom (Re.AChar "/") Re.QOne;
               Re.NAtom (Re.AChar "x") Re.QOne; Re.NEol]).
    + reflexivity.
    + vm_compute. discriminate.
    + reflexivity.
    + reflexivity.
    + vm_compute. reflexivity.
Defined.

(** C2, as stated, fails: two routes with one template and two names, on a
    new router, where [re.compile] rejects the pattern of the template. *)
Lemma shared_template_may_not_register :
  template (Route_init "/{}" view_a None None)
  = template (Route_init "/{}" view_b None None) ∧
  name (Route_init "/{}" view_a None None)
  ≠ name (Route_init "/{}" view_b None None) ∧
  (add_routes Router_empty
     [Route_ (Route_init "/{}" view_a None None);
      Route_ (Route_init "/{}" view_b None None)] "").2
  = Some (re_error "missing group name") ∧
  ¬ ∃ self', add_routes Router_empty
               [Route_ (Route_init "/{}" view_a None None);
                Route_ (Route_init "/{}" view_b None None)] ""
             = (self', None).
Proof.
  split; [reflexivity|]. split; [vm_compute; discriminate|].
  assert (H : (add_routes Router_empty
                 [Route_ (Route_init "/{}" view_a None None);
                  Route_ (Route_init "/{}" view_b None None)] "").2
              = Some (re_error "missing group name"))
    by (vm_compute; reflexivity).
  split; [exact H|].
  intros [self' H']. rewrite H' in H. discriminate.
Qed.

(** ** Invariants of registration *)

Lemma RouteLike_nested_ind (P : RouteLike → Prop) :
  (∀ route, P (Route_ route)) →
  (∀ prefix routes, Forall P routes → P (Include prefix routes)) →
  ∀ route_like, P route_like.
Proof.
  intros HR HI. fix IH 1. intros [route|prefix routes]; [apply HR|].
  apply HI. induction routes as [|x l IHl]; constructor; [apply IH|exact IHl].
Qed.

(** A property of the router that registering one route keeps, whatever
    the outcome, is kept by [add_route] and [add_routes]. *)
Section Preserved.
Variable P : Router → Prop.
Hypothesis P_Route :
  ∀ self route prefix, P self → P (add_route_Route self route prefix).1.

Lemma add_routes_preserves_aux routes :
  Forall (λ x, ∀ self prefix, P self → P (add_route self x prefix).1) routes →
  ∀ self prefix, P self → P (add_routes self routes prefix).1.
Proof.
  induction 1 as [|x l Hx _ IH]; intros self prefix HP; simpl; [done|].
  specialize (Hx self prefix HP).
  destruct (add_route self x prefix) as [self' [e|]]; simpl in *; auto.
Qed.

Lemma add_route_preserves route_like :
  ∀ self prefix, P self → P (add_route self route_like prefix).1.
Proof.
  induction route_like as [route|p routes IH] using RouteLike_nested_ind;
    intros self prefix HP.
  - by apply P_Route.
  - rewrite add_route_Include. by apply add_routes_preserves_aux.
Qed.

Lemma add_routes_preserves routes self prefix :
  P self → P (add_routes self routes prefix).1.
Proof.
  apply add_routes_preserves_aux, Forall_forall.
  intros x _. apply add_route_preserves.
Qed.
End Preserved.

Lemma add_route_Route_keeps_name self route prefix n r :
  _routes_by_name self !! n = Some r →
  _routes_by_name (add_route_Route self route prefix).1 !! n = Some r.
Proof.
  intros H. unfold add_route_Route.
  case_bool_decide as Hn; [done|].
  destruct (Py.dd_getitem _ _) as [res rr].
  assert (name route ≠ n) by (intros Heq; apply Hn; rewrite Heq; eauto).
  destruct (_compile_route_template _); simpl; by rewrite lookup_insert_ne.
Qed.

Lemma add_routes_keeps_name routes self prefix n r :
  _routes_by_name self !! n = Some r →
  _routes_by_name (add_routes self routes prefix).1 !! n = Some r.
Proof.
  apply (add_routes_preserves (λ s, _routes_by_name s !! n = Some r)).
  intros; by apply add_route_Route_keeps_name.
Qed.

(** ** Matching against the registered routes *)

Lemma match_pairs self method path :
  (match_ self method path).2 = first_match (pairs self method) path.
Proof.
  unfold match_, pairs, Py.dd_getitem.
  destruct (_routes_by_method self !! method);
    destruct (_route_res_by_method self !! method); done.
Qed.

Lemma pairs_add_route_Route self route prefix self' :
  add_route_Route self route prefix = (self', None) →
  ∃ p, _compile_route_template (prefix +:+ template route) = Re.Compiled p ∧
    pairs self' (method route) = (route, p) :: pairs self (method route) ∧
    ∀ m, m ≠ method route → pairs self' m = pairs self m.
Proof.
  intros H. destruct (add_route_Route_ok _ _ _ _ H) as (_ & p & Hc & ->).
  exists p. split; [done|]. unfold pairs; simpl. split.
  - by rewrite !lookup_insert_eq.
  - intros m Hm. by rewrite !lookup_insert_ne.
Qed.

Lemma first_match_In l path route params :
  first_match l path = Some (route, params) → ∃ p, (route, p) ∈ l.
Proof.
  induction l as [|[r p] l IH]; simpl; [done|].
  destruct (Re.match_ p path).
  - intros [= -> ->]. exists p. by left.
  - intros H. destruct (IH H) as [p' Hp']. exists p'. by right.
Qed.

Lemma first_match_none l path :
  (∀ route p, (route, p) ∈ l → Re.match_ p path = None) →
  first_match l path = None.
Proof.
  induction l as [|[r p] l IH]; simpl; [done|]. intros H.
  rewrite (H r p) by by left. apply IH. intros ???. eapply H. by right.
Qed.

(** ** Method scoping *)

Lemma methods_ok_add_route_Route self route prefix :
  methods_ok self → methods_ok (add_route_Route self route prefix).1.
Proof.
  intros Hok. unfold add_route_Route.
  case_bool_decide; [done|].
  destruct (Py.dd_getitem (_route_res_by_method self) _) as [res rr].
  assert (methods_ok
            {| _routes_by_name := <[name route := route]> (_routes_by_name self);
               _routes_by_method :=
                 Py.dd_insert_front (_routes_by_method self) (method route) route;
               _route_res_by_method := res |}) as Hgoal.
  { intros m routes. simpl. unfold Py.dd_insert_front, Py.dd_getitem.
    destruct (_routes_by_method self !! method route) as [rs|] eqn:Hm;
      rewrite ?insert_insert_eq;
      (destruct (decide (m = method route)) as [->|Hne];
       [rewrite lookup_insert_eq; intros [= <-]
       |rewrite lookup_insert_ne by done; apply Hok]).
    - constructor; [done|]. by apply Hok.
    - by constructor. }
  destruct (_compile_route_template _); exact Hgoal.
Qed.

Lemma methods_ok_match self method path :
  methods_ok self → methods_ok (match_ self method path).1.
Proof.
  intros Hok. unfold match_, Py.dd_getitem.
  destruct (_routes_by_method self !! method) eqn:Hm;
    destruct (_route_res_by_method self !! method); simpl; try exact Hok;
    intros m routes; simpl;
    (destruct (decide (m = method)) as [->|Hne];
     [rewrite lookup_insert_eq; by intros [= <-]
     |rewrite lookup_insert_ne by done; apply Hok]).
Qed.

Lemma built_methods_ok self : built self → methods_ok self.
Proof.
  induction 1.
  - intros m routes. simpl. by rewrite lookup_empty.
  - apply add_route_preserves; [|done].
    intros; by apply methods_ok_add_route_Route.
  - apply add_routes_preserves; [|done].
    intros; by apply methods_ok_add_route_Route.
  - by apply methods_ok_match.
Qed.

Lemma elem_of_zip_l {A B} (l : list A) (k : list B) x y :
  (x, y) ∈ zip l k → x ∈ l.
Proof.
  revert k. induction l as [|a l IH]; intros [|b k]; simpl;
    try (by intros ?%elem_of_nil).
  intros [[= -> ->]|H]%elem_of_cons; [by left|right; eauto].
Qed.

Lemma elem_of_zip_r {A B} (l : list A) (k : list B) x y :
  (x, y) ∈ zip l k → y ∈ k.
Proof.
  revert k. induction l as [|a l IH]; intros [|b k]; simpl;
    try (by intros ?%elem_of_nil).
  intros [[= -> ->]|H]%elem_of_cons; [by left|right; eauto].
Qed.

(** C7: [match] looks only at the routes of the method it is given, and
    answers [None] both when that method has no routes and when none of
    its patterns matches the path. *)
Theorem match_method_scoped (self : Router) (method_ path : string) :
  (built self →
   ∀ route params, (match_ self method_ path).2 = Some (route, params) →
     method route = method_) ∧
  (_routes_by_method self !! method_ = None →
   (match_ self method_ path).2 = None) ∧
  ((∀ p, p ∈ default [] (_route_res_by_method self !! method_) →
      Re.match_ p path = None) →
   (match_ self method_ path).2 = None).
Proof.
  split; [|split].
  - intros Hb route params H. rewrite match_pairs in H.
    apply first_match_In in H as [p Hp]. apply elem_of_zip_l in Hp.
    pose proof (built_methods_ok _ Hb method_) as Hok.
    destruct (_routes_by_method self !! method_) as [rs|]; simpl in Hp.
    + specialize (Hok rs eq_refl). rewrite Forall_forall in Hok. by apply Hok.
    + by apply elem_of_nil in Hp.
  - intros H. rewrite match_pairs. unfold pairs. by rewrite H.
  - intros H. rewrite match_pairs. apply first_match_none.
    intros route p Hp. apply H. by apply elem_of_zip_r in Hp.
Qed.

Lemma match_method_scoped_witness :
  (∀ route params, (match_ router_post "GET" "/x").2 = Some (route, params) →
     method route = "GET") ∧
  (match_ router_post "GET" "/x").2 = None ∧
  (match_ router_post "POST" "/nonexistent").2 = None.
Proof.
  destruct (match_method_scoped router_post "GET" "/x") as (H1 & H2 & _).
  destruct (match_method_scoped router_post "POST" "/nonexistent") as (_ & _ & H3).
  split; [|split].
  - apply H1. apply built_add_routes, built_empty.
  - apply H2. vm_compute. reflexivity.
  - apply H3. intros p Hp.
    match type of Hp with
    | _ ∈ ?l =>
        assert (l = [[Re.NBol; Re.NAtom (Re.AChar "/") Re.QOne;
                      Re.NAtom (Re.AChar "x") Re.QOne; Re.NEol]]) as Hd
          by (vm_compute; reflexivity)
    end.
    rewrite Hd in Hp. apply list_elem_of_singleton in Hp as ->.
    vm_compute. reflexivity.
Defined.

(** ** The query-parameter accessor *)

(** C9: [self[name]] is the last value stored under [name] and raises
    [ParamMissing] when [name] is not a key of the mapping; [get] returns
    the same value, and the default in place of the exception. *)
Theorem get_last_or_default (self : QueryParams.t) (name_ : string)
    (default_ : option string) :
  (∀ values v, QueryParams._data self !! name_ = Some (values ++ [v]) →
     QueryParams.__getitem__ self name_ = (self, inl v) ∧
     QueryParams.get self name_ default_ = (self, Some v)) ∧
  (QueryParams._data self !! name_ = None →
     (QueryParams.__getitem__ self name_).2
     = inr (QueryParams.ParamMissing name_) ∧
     (QueryParams.get self name_ default_).2 = default_).
Proof.
  destruct self as [data]. unfold QueryParams.get, QueryParams.__getitem__,
    Py.dd_getitem. simpl. split.
  - intros values v ->. by rewrite last_snoc.
  - intros ->. done.
Qed.

Lemma get_last_or_default_witness :
  (QueryParams.__getitem__ params_ab "a" = (params_ab, inl "2") ∧
   QueryParams.get params_ab "a" (Some "0") = (params_ab, Some "2")) ∧
  ((QueryParams.__getitem__ params_ab "c").2
   = inr (QueryParams.ParamMissing "c") ∧
   (QueryParams.get params_ab "c" (Some "0")).2 = Some "0").
Proof.
  destruct (get_last_or_default params_ab "a" (Some "0")) as [H1 _].
  destruct (get_last_or_default params_ab "c" (Some "0")) as [_ H2].
  split.
  - apply (H1 ["1"] "2"). vm_compute. reflexivity.
  - apply H2. vm_compute. reflexivity.
Defined.

(** A key that was looked up and missed stays bound to the empty list, and
    is missed again. *)
Lemma getitem_missing_again (self : QueryParams.t) (name_ : string) :
  QueryParams._data self !! name_ = None →
  (QueryParams.__getitem__ (QueryParams.__getitem__ self name_).1 name_).2
  = inr (QueryParams.ParamMissing name_).
Proof.
  destruct self as [data]. unfold QueryParams.__getitem__, Py.dd_getitem.
  simpl. intros ->. simpl. by rewrite lookup_insert_eq.
Qed.

(** ** Groups and prefixes *)

Lemma append_cons (c : ascii) (s t : string) :
  String c s +:+ t = String c (s +:+ t).
Proof. reflexivity. Qed.

Lemma append_nil_l (s : string) : "" +:+ s = s.
Proof. reflexivity. Qed.

Lemma append_assoc (s1 s2 s3 : string) :
  (s1 +:+ s2) +:+ s3 = s1 +:+ s2 +:+ s3.
Proof.
  induction s1 as [|c s1 IH]; [done|]. rewrite !append_cons. by f_equal.
Qed.

Lemma append_nil_r (s : string) : s +:+ "" = s.
Proof. induction s as [|c s IH]; [done|]. rewrite append_cons. by f_equal. Qed.

Lemma flatten_Include p routes prefix :
  flatten (Include p routes) prefix = flatten_all routes (prefix +:+ p).
Proof.
  unfold flatten_all. simpl.
  induction routes as [|x l IH]; simpl; [done|]. by rewrite IH.
Qed.

Lemma add_flat_app self l1 l2 :
  add_flat self (l1 ++ l2) =
  match add_flat self l1 with
  | (self', None) => add_flat self' l2
  | raised => raised
  end.
Proof.
  revert self. induction l1 as [|[r p] l IH]; intros self; simpl; [done|].
  destruct (add_route_Route self r p) as [self' [e|]]; auto.
Qed.

(** [add_route] is the registration of the flattened routes. *)
Lemma add_route_flatten route_like :
  ∀ self prefix,
    add_route self route_like prefix = add_flat self (flatten route_like prefix).
Proof.
  induction route_like as [route|p routes IH] using RouteLike_nested_ind;
    intros self prefix.
  - simpl. by destruct (add_route_Route self route prefix) as [s [e|]].
  - rewrite add_route_Include, flatten_Include. unfold flatten_all.
    generalize (prefix +:+ p). intros q. revert self.
    induction IH as [|x l Hx _ IHl]; intros self; simpl; [done|].
    rewrite add_flat_app, <- Hx.
    destruct (add_route self x q) as [self' [e|]]; auto.
Qed.

Lemma elem_of_flatten_all routes x prefix y :
  x ∈ routes → y ∈ flatten x prefix → y ∈ flatten_all routes prefix.
Proof.
  unfold flatten_all. intros Hx Hy.
  induction routes as [|a l IH]; [by apply elem_of_nil in Hx|].
  simpl. apply elem_of_app.
  apply elem_of_cons in Hx as [->|Hx]; [by left|right; auto].
Qed.

Lemma occurs_flatten route_like prefixes route :
  occurs route_like prefixes route →
  ∀ prefix, (route, prefix +:+ join prefixes) ∈ flatten route_like prefix.
Proof.
  induction 1 as [route|p routes x prefixes route Hx _ IH]; intros prefix.
  - simpl. rewrite append_nil_r. by left.
  - rewrite flatten_Include. unfold flatten_all.
    change (join (p :: prefixes)) with (p +:+ join prefixes).
    rewrite <- append_assoc. by eapply elem_of_flatten_all.
Qed.

Lemma pairs_add_route_Route_mono self route prefix self' x m :
  add_route_Route self route prefix = (self', None) →
  x ∈ pairs self m → x ∈ pairs self' m.
Proof.
  intros H Hx. destruct (pairs_add_route_Route _ _ _ _ H) as (p & _ & Hp & Hne).
  destruct (decide (m = method route)) as [->|Hm].
  - rewrite Hp. by right.
  - by rewrite Hne.
Qed.

Lemma add_flat_registers l :
  ∀ self self', add_flat self l = (self', None) →
    (∀ x m, x ∈ pairs self m → x ∈ pairs self' m) ∧
    ∀ route prefix, (route, prefix) ∈ l →
      ∃ p, _compile_route_template (prefix +:+ template route) = Re.Compiled p ∧
           (route, p) ∈ pairs self' (method route).
Proof.
  induction l as [|[r q] l IH]; intros self self' H; simpl in H.
  - injection H as ->. split; [done|]. by intros ?? ?%elem_of_nil.
  - destruct (add_route_Route self r q) as [s1 [e|]] eqn:H1; [done|].
    destruct (IH _ _ H) as [Hmono Hreg]. split.
    + intros x m Hx. apply Hmono. by eapply pairs_add_route_Route_mono.
    + intros route prefix [[= -> ->]|Hin]%elem_of_cons; [|by apply Hreg].
      destruct (pairs_add_route_Route _ _ _ _ H1) as (p & Hc & Hp & _).
      exists p. split; [done|]. apply Hmono. rewrite Hp. by left.
Qed.

(** C3: a route with template [t] in a group with prefix [p2], registered
    under the prefix [p1], is matched against the compiled [p1 + p2 + t];
    through any nesting the prefixes are concatenated from the outermost
    inwards; and the group ["/api"] holding [GET "/users/{id}"], registered
    under ["/v1"], matches ["/v1/api/users/42"] with [id] bound to ["42"]
    and nothing else. *)
Theorem group_prefixes_concatenate :
  (∀ (self self' : Router) (p1 p2 : string) (routes : list RouteLike)
     (route : Route),
     add_route self (Include p2 routes) p1 = (self', None) →
     Route_ route ∈ routes →
     ∃ p, _compile_route_template (p1 +:+ p2 +:+ template route)
          = Re.Compiled p ∧
          (route, p) ∈ pairs self' (method route)) ∧
  (∀ (self self' : Router) (route_like : RouteLike) (prefix : string)
     (prefixes : list string) (route : Route),
     add_route self route_like prefix = (self', None) →
     occurs route_like prefixes route →
     ∃ p, _compile_route_template (prefix +:+ join prefixes +:+ template route)
          = Re.Compiled p ∧
          (route, p) ∈ pairs self' (method route)) ∧
  router_v1.2 = None ∧
  (match_ router_v1.1 "GET" "/v1/api/users/42").2
  = Some (route_user, {[ "id" := "42" ]}).
Proof.
  assert (∀ (self self' : Router) (route_like : RouteLike) (prefix : string)
            (prefixes : list string) (route : Route),
            add_route self route_like prefix = (self', None) →
            occurs route_like prefixes route →
            ∃ p, _compile_route_template
                   (prefix +:+ join prefixes +:+ template route)
                 = Re.Compiled p ∧
                 (route, p) ∈ pairs self' (method route)) as Hnest.
  { intros self self' route_like prefix prefixes route Hreg Hocc.
    rewrite add_route_flatten in Hreg.
    destruct (add_flat_registers _ _ _ Hreg) as [_ H].
    rewrite <- append_assoc. apply H. by apply occurs_flatten. }
  split; [|split; [exact Hnest|split; vm_compute; reflexivity]].
  intros self self' p1 p2 routes route Hreg Hin.
  destruct (Hnest self self' (Include p2 routes) p1 [p2] route Hreg)
    as (p & Hc & Hp).
  - econstructor; [exact Hin|constructor].
  - exists p. split; [|done].
    unfold join in Hc. simpl in Hc. by rewrite append_nil_r in Hc.
Qed.

Lemma group_prefixes_concatenate_witness :
  (∃ p, _compile_route_template ("/v1" +:+ "/api" +:+ "/users/{id}")
        = Re.Compiled p ∧
        (route_user, p) ∈ pairs router_v1.1 "GET") ∧
  (∃ p, _compile_route_template
          ("/v1" +:+ join ["/api"] +:+ template route_user)
        = Re.Compiled p ∧
        (route_user, p) ∈ pairs router_v1.1 (method route_user)).
Proof.
  destruct group_prefixes_concatenate as (H1 & H2 & _). split.
  - apply (H1 Router_empty router_v1.1 "/v1" "/api" [Route_ route_user]
              route_user).
    + vm_compute. reflexivity.
    + by left.
  - apply (H2 Router_empty router_v1.1
              (Include "/api" [Route_ route_user]) "/v1" ["/api"] route_user).
    + vm_compute. reflexivity.
    + apply (occurs_include "/api" [Route_ route_user] (Route_ route_user)
                            [] route_user).
      * by left.
      * constructor.
Defined.

(** ** Well-formed templates *)

(** *** Splitting and compiling a rendered template *)

Lemma forallb_str_app f s t :
  Re.forallb_str f (s +:+ t) = Re.forallb_str f s && Re.forallb_str f t.
Proof.
  induction s as [|c s IH]; [done|]. rewrite append_cons. simpl.
  by rewrite IH, andb_assoc.
Qed.

Lemma forallb_str_impl (f g : ascii → bool) s :
  (∀ c, f c = true → g c = true) →
  Re.forallb_str f s = true → Re.forallb_str g s = true.
Proof.
  intros Hfg. induction s as [|c s IH]; simpl; [done|].
  intros [Hc Hs]%andb_true_iff. rewrite (Hfg c Hc). simpl. auto.
Qed.

Lemma split_cons_sep s : Py.split sep (String sep s) = "" :: Py.split sep s.
Proof. reflexivity. Qed.

Lemma split_nonempty c s : Py.split c s ≠ [].
Proof.
  destruct s as [|a s]; simpl; [done|].
  case_bool_decide; [done|]. by destruct (Py.split c s).
Qed.

Lemma split_app_no_sep t s h tl :
  no_sep t = true → Py.split sep s = h :: tl →
  Py.split sep (t +:+ s) = (t +:+ h) :: tl.
Proof.
  intros Ht Hs. induction t as [|c t IH]; [done|].
  simpl in Ht. apply andb_true_iff in Ht as [Hc Ht].
  rewrite append_cons. simpl.
  apply negb_true_iff, bool_decide_eq_false in Hc.
  rewrite bool_decide_eq_false_2 by done. by rewrite IH.
Qed.

Lemma identifier_chars name :
  Re.isidentifier name = true →
  Re.forallb_str (λ c, Re.is_alpha_ c || Re.is_digit c) name = true.
Proof.
  destruct name as [|c s]; simpl; [done|].
  intros [Hc Hs]%andb_true_iff. by rewrite Hc, Hs.
Qed.

Lemma segment_text_no_sep sg :
  segment_ok sg = true → no_sep (segment_text sg) = true.
Proof.
  destruct sg as [text|name]; simpl; intros H.
  - eapply forallb_str_impl; [|exact H].
    intros c [_ Hc]%andb_true_iff. exact Hc.
  - unfold no_sep. rewrite !forallb_str_app. simpl.
    rewrite andb_true_r.
    eapply forallb_str_impl; [|by apply identifier_chars].
    intros c Hc. apply negb_true_iff, bool_decide_eq_false. intros ->.
    vm_compute in Hc. done.
Qed.

Lemma render_cons sg segs :
  render (sg :: segs) = String sep (segment_text sg +:+ render segs).
Proof. unfold render. simpl. by rewrite append_assoc. Qed.

Lemma split_render segs :
  forallb segment_ok segs = true →
  Py.split sep (render segs) = "" :: map segment_text segs.
Proof.
  induction segs as [|sg segs IH]; [done|].
  intros H. simpl in H. apply andb_true_iff in H as [Hsg Hsegs].
  rewrite render_cons, split_cons_sep.
  erewrite split_app_no_sep; [|by apply segment_text_no_sep|by apply IH].
  by rewrite append_nil_r.
Qed.

Lemma fold_left_append (f : string → string) l acc :
  fold_left (λ re_template segment, re_template +:+ f segment) l acc
  = acc +:+ join (map f l).
Proof.
  revert acc. induction l as [|x l IH]; intros acc; simpl.
  - by rewrite append_nil_r.
  - rewrite IH. unfold join. simpl. by rewrite append_assoc.
Qed.

Lemma endswith_snoc s c : Py.endswith (s +:+ String c "") c = true.
Proof.
  induction s as [|a s IH]; [simpl; by rewrite bool_decide_eq_true_2|].
  rewrite append_cons.
  destruct s as [|b s]; [simpl; by rewrite bool_decide_eq_true_2|].
  exact IH.
Qed.

Lemma drop_last_snoc s c : Py.drop_last (s +:+ String c "") = s.
Proof.
  induction s as [|a s IH]; [done|].
  rewrite append_cons.
  destruct s as [|b s]; [done|].
  rewrite append_cons in *. simpl in *. by rewrite IH.
Qed.

Lemma compile_segment_placeholder name :
  compile_segment (segment_text (Placeholder name))
  = "/(?P<" +:+ name +:+ ">[^/]+)".
Proof.
  unfold compile_segment, segment_text.
  change ("{" +:+ name +:+ "}") with (String "{" (name +:+ "}")).
  change (Py.startswith (String "{" (name +:+ "}")) "{") with true.
  change (String "{" (name +:+ "}")) with (("{" +:+ name) +:+ "}") at 1.
  rewrite endswith_snoc. simpl.
  unfold Py.slice_1_m1. simpl. by rewrite drop_last_snoc.
Qed.

Lemma plain_not_special c : plain_char c = true → c ∉ Re.special.
Proof.
  intros [H _]%andb_true_iff. by apply negb_true_iff, bool_decide_eq_false in H.
Qed.

Lemma compile_segment_literal text :
  Re.forallb_str plain_char text = true →
  compile_segment (segment_text (Literal text)) = "/" +:+ text.
Proof.
  intros H. unfold compile_segment, segment_text.
  destruct text as [|c text]; [done|].
  simpl in H. apply andb_true_iff in H as [Hc _].
  apply plain_not_special in Hc.
  assert (c ≠ "{"%char) as Hne.
  { intros ->. apply Hc. apply (bool_decide_unpack _). by vm_compute. }
  simpl. by rewrite bool_decide_eq_false_2.
Qed.

(** *** The parser on the pattern of a rendered template *)

Lemma parse_from_app st s t :
  Re.parse_from st (s +:+ t) =
  match Re.parse_from st s with
  | inl st' => Re.parse_from st' t
  | inr f => inr f
  end.
Proof.
  revert st. induction s as [|c s IH]; intros st; [done|].
  rewrite append_cons. simpl. destruct (Re.step st c); [apply IH|done].
Qed.

Lemma step_ordinary st c :
  Re.p_mode st = Re.MNormal → c ∉ Re.special →
  Re.step st c = inl (Re.push st (Re.NAtom (Re.AChar c) Re.QOne)).
Proof.
  intros Hm Hc. unfold Re.step. rewrite Hm. unfold Re.step_normal.
  repeat (case_bool_decide as H;
          [try (subst c; exfalso; apply Hc; apply (bool_decide_unpack _);
                by vm_compute)|clear H]).
  - done.
  - done.
Qed.

Lemma parse_ordinary text :
  ∀ st, Re.p_mode st = Re.MNormal →
    Re.forallb_str not_special text = true →
    Re.parse_from st text =
    inl {| Re.p_mode := Re.MNormal;
           Re.p_cur := rev (literal_nodes text) ++ Re.p_cur st;
           Re.p_open := Re.p_open st;
           Re.p_names := Re.p_names st |}.
Proof.
  induction text as [|c text IH]; intros st Hm H.
  - simpl. destruct st; simpl in *; by subst.
  - simpl in H. apply andb_true_iff in H as [Hc H].
    apply negb_true_iff, bool_decide_eq_false in Hc.
    simpl. rewrite step_ordinary by done.
    rewrite IH by done. simpl. by rewrite <- app_assoc.
Qed.

Lemma parse_name name :
  ∀ st acc rest, Re.p_mode st = Re.MName acc →
    Re.forallb_str name_char name = true →
    Re.parse_from st (name +:+ rest)
    = Re.parse_from (Re.set_mode st (Re.MName (acc +:+ name))) rest.
Proof.
  induction name as [|c name IH]; intros st acc rest Hm H.
  - rewrite append_nil_r. destruct st; simpl in *; by subst.
  - simpl in H. apply andb_true_iff in H as [Hc H].
    apply andb_true_iff in Hc as [Hc1 Hc2].
    apply negb_true_iff in Hc1. apply negb_true_iff in Hc2.
    rewrite append_cons. simpl. unfold Re.step. rewrite Hm, Hc1, Hc2.
    rewrite (IH _ (acc +:+ String c "")) by done.
    by rewrite append_assoc.
Qed.

Lemma identifier_not_empty name : Re.isidentifier name = true → name ≠ "".
Proof. by destruct name. Qed.

Lemma identifier_char_facts c :
  Re.is_alpha_ c || Re.is_digit c = true →
  name_char c = true ∧ Re.is_ascii c = true.
Proof.
  intros H. split.
  - unfold name_char. apply andb_true_iff.
    split; apply negb_true_iff, bool_decide_eq_false; intros ->;
      by vm_compute in H.
  - unfold Re.is_alpha_, Re.is_digit, Re.is_ascii in *.
    apply Nat.ltb_lt.
    repeat (apply orb_true_iff in H as [H|H]);
      try apply andb_true_iff in H as [_ H];
      try apply Nat.leb_le in H; try apply Nat.eqb_eq in H; lia.
Qed.

Lemma identifier_no_gt name :
  Re.isidentifier name = true → Re.forallb_str name_char name = true.
Proof.
  intros H. eapply forallb_str_impl; [|by apply identifier_chars].
  intros c Hc. by apply identifier_char_facts.
Qed.

Lemma identifier_ascii name :
  Re.isidentifier name = true → Re.forallb_str Re.is_ascii name = true.
Proof.
  intros H. eapply forallb_str_impl; [|by apply identifier_chars].
  intros c Hc. by apply identifier_char_facts.
Qed.

Lemma parse_group name st :
  Re.p_mode st = Re.MNormal →
  Re.isidentifier name = true →
  name ∉ Re.p_names st →
  Re.parse_from st ("/(?P<" +:+ name +:+ ">[^/]+)") =
  inl {| Re.p_mode := Re.MNormal;
         Re.p_cur := group_node name
                     :: Re.NAtom (Re.AChar sep) Re.QOne :: Re.p_cur st;
         Re.p_open := Re.p_open st;
         Re.p_names := name :: Re.p_names st |}.
Proof.
  intros Hm Hid Hfresh. destruct st as [m cur opn names]. simpl in *. subst m.
  change ("/(?P<" +:+ name +:+ ">[^/]+)")
    with (String "/" (String "(" (String "?" (String "P" (String "<"
            (name +:+ ">[^/]+)")))))).
  cbn [Re.parse_from].
  change (Re.step _ "/")
    with (@inl Re.pstate Re.failure
            {| Re.p_mode := Re.MNormal;
               Re.p_cur := Re.NAtom (Re.AChar sep) Re.QOne :: cur;
               Re.p_open := opn; Re.p_names := names |}).
  cbv iota beta.
  change (Re.step _ "(")
    with (@inl Re.pstate Re.failure
            {| Re.p_mode := Re.MOpen;
               Re.p_cur := Re.NAtom (Re.AChar sep) Re.QOne :: cur;
               Re.p_open := opn; Re.p_names := names |}).
  cbv iota beta.
  change (Re.step _ "?")
    with (@inl Re.pstate Re.failure
            {| Re.p_mode := Re.MOpenQ;
               Re.p_cur := Re.NAtom (Re.AChar sep) Re.QOne :: cur;
               Re.p_open := opn; Re.p_names := names |}).
  cbv iota beta.
  change (Re.step _ "P")
    with (@inl Re.pstate Re.failure
            {| Re.p_mode := Re.MOpenQP;
               Re.p_cur := Re.NAtom (Re.AChar sep) Re.QOne :: cur;
               Re.p_open := opn; Re.p_names := names |}).
  cbv iota beta.
  change (Re.step _ "<")
    with (@inl Re.pstate Re.failure
            {| Re.p_mode := Re.MName "";
               Re.p_cur := Re.NAtom (Re.AChar sep) Re.QOne :: cur;
               Re.p_open := opn; Re.p_names := names |}).
  cbv iota beta. rewrite append_nil_l.
  rewrite (parse_name name _ "") by (done || by apply identifier_no_gt).
  rewrite append_nil_l.
  change (">[^/]+)") with (String ">" "[^/]+)").
  cbn [Re.parse_from].
  assert (Re.step
            (Re.set_mode
               {| Re.p_mode := Re.MName "";
                  Re.p_cur := Re.NAtom (Re.AChar sep) Re.QOne :: cur;
                  Re.p_open := opn; Re.p_names := names |}
               (Re.MName name)) ">"
          = inl {| Re.p_mode := Re.MNormal; Re.p_cur := [];
                   Re.p_open :=
                     (Some name, Re.NAtom (Re.AChar sep) Re.QOne :: cur) :: opn;
                   Re.p_names := name :: names |}) as ->.
  { unfold Re.step, Re.set_mode. cbn [Re.p_mode].
    change (bool_decide (">"%char = ">"%char)) with true. cbv iota.
    unfold Re.close_name.
    rewrite bool_decide_eq_false_2 by by apply identifier_not_empty.
    rewrite identifier_ascii, Hid by done. cbn [negb].
    rewrite bool_decide_eq_false_2 by done. reflexivity. }
  reflexivity.
Qed.

Lemma plain_chars_not_special text :
  Re.forallb_str plain_char text = true →
  Re.forallb_str not_special text = true.
Proof.
  apply forallb_str_impl. intros c [H _]%andb_true_iff. exact H.
Qed.

Lemma join_cons s l : join (s :: l) = s +:+ join l.
Proof. reflexivity. Qed.

Lemma join_app l1 l2 : join (l1 ++ l2) = join l1 +:+ join l2.
Proof.
  induction l1 as [|s l1 IH]; [done|].
  change (join ((s :: l1) ++ l2)) with (s +:+ join (l1 ++ l2)).
  by rewrite IH, join_cons, append_assoc.
Qed.

Lemma template_nodes_cons sg segs :
  template_nodes (sg :: segs) = segment_nodes sg ++ template_nodes segs.
Proof. reflexivity. Qed.

Lemma parse_segments segs :
  ∀ st, Re.p_mode st = Re.MNormal →
    forallb segment_ok segs = true →
    NoDup (placeholders segs) →
    (∀ n, n ∈ placeholders segs → n ∉ Re.p_names st) →
    Re.parse_from st (join (map compile_segment (map segment_text segs))) =
    inl {| Re.p_mode := Re.MNormal;
           Re.p_cur := rev (template_nodes segs) ++ Re.p_cur st;
           Re.p_open := Re.p_open st;
           Re.p_names := rev (placeholders segs) ++ Re.p_names st |}.
Proof.
  induction segs as [|sg segs IH]; intros st Hm Hok Hnd Hfresh.
  - simpl. destruct st; simpl in *; by subst.
  - simpl in Hok. apply andb_true_iff in Hok as [Hsg Hok].
    rewrite !map_cons, join_cons, parse_from_app, template_nodes_cons.
    destruct sg as [text|name]; simpl in Hsg.
    + rewrite compile_segment_literal by done.
      change ("/" +:+ text) with (String sep text).
      rewrite parse_ordinary;
        [|done|simpl; by rewrite plain_chars_not_special].
      rewrite IH; [|done|done|done|exact Hfresh].
      cbn [Re.p_cur Re.p_open Re.p_names Re.p_mode].
      rewrite rev_app_distr, <- app_assoc. reflexivity.
    + simpl in Hnd. apply NoDup_cons in Hnd as [Hnotin Hnd].
      rewrite compile_segment_placeholder.
      rewrite parse_group; [|done|done|apply Hfresh; simpl; by left].
      rewrite IH; [|done|done|done|].
      * cbn [Re.p_cur Re.p_open Re.p_names Re.p_mode].
        rewrite rev_app_distr, <- app_assoc.
        change (placeholders (Placeholder name :: segs))
          with (name :: placeholders segs).
        change (rev (name :: placeholders segs))
          with (rev (placeholders segs) ++ [name]).
        rewrite <- app_assoc. reflexivity.
      * intros n Hn. cbn [Re.p_names]. apply not_elem_of_cons. split.
        -- intros ->. done.
        -- apply Hfresh. simpl. by right.
Qed.

(** The pattern of a well-formed template. *)
Lemma compile_render segs :
  well_formed segs = true →
  _compile_route_template (render segs)
  = Re.Compiled (Re.NBol :: template_nodes segs ++ [Re.NEol]).
Proof.
  intros [Hok Hnd]%andb_true_iff. apply bool_decide_eq_true in Hnd.
  unfold _compile_route_template.
  change (Py.split "/" (render segs)) with (Py.split sep (render segs)).
  rewrite split_render by done. unfold Py.list_drop_first. simpl drop.
  rewrite fold_left_append, append_nil_l.
  unfold Re.compile.
  change ("^" +:+ ?x) with (String "^" x).
  cbn [Re.parse_from].
  change (Re.step Re.init "^")
    with (@inl Re.pstate Re.failure
            {| Re.p_mode := Re.MNormal; Re.p_cur := [Re.NBol];
               Re.p_open := []; Re.p_names := [] |}).
  cbv iota beta. rewrite drop_0.
  rewrite parse_from_app, parse_segments;
    [|done|done|done|intros n _; simpl; apply not_elem_of_nil].
  cbn [Re.p_cur Re.p_open Re.p_names Re.p_mode].
  change ("$") with (String "$" "").
  cbn [Re.parse_from].
  change (Re.step ?st "$") with (@inl Re.pstate Re.failure (Re.push st Re.NEol)).
  cbv iota beta. unfold Re.finish, Re.push.
  cbn [Re.p_cur Re.p_open Re.p_names Re.p_mode].
  change (rev (Re.NEol :: ?l)) with (rev l ++ [Re.NEol]).
  rewrite rev_app_distr, rev_involutive. reflexivity.
Qed.

(** *** The matcher on the pattern of a rendered template *)

Lemma length_append s t :
  String.length (s +:+ t) = String.length s + String.length t.
Proof.
  induction s as [|c s IH]; [done|]. rewrite append_cons. simpl. by rewrite IH.
Qed.

Lemma take_append v rest : Re.take (String.length v) (v +:+ rest) = v.
Proof.
  induction v as [|c v IH]; [by destruct rest|].
  rewrite append_cons. simpl. by rewrite IH.
Qed.

Lemma captured_append v rest : Re.captured (v +:+ rest) rest = v.
Proof.
  unfold Re.captured. rewrite length_append.
  replace (String.length v + String.length rest - String.length rest)
    with (String.length v) by lia.
  apply take_append.
Qed.

Lemma span_no_sep_spec s v rest :
  span_no_sep s = (v, rest) →
  s = v +:+ rest ∧ no_sep v = true ∧ boundary rest = true.
Proof.
  revert v rest. induction s as [|c s IH]; intros v rest; simpl.
  - by intros [= <- <-].
  - case_bool_decide as Hc.
    + intros [= <- <-]. split_and!; [done|done|].
      unfold boundary. by apply bool_decide_eq_true_2.
    + destruct (span_no_sep s) as [v' rest'] eqn:Hs. intros [= <- <-].
      destruct (IH v' rest' eq_refl) as (-> & Hv & Hb).
      split_and!; [done| |done].
      unfold no_sep in *. cbn [Re.forallb_str].
      by rewrite bool_decide_eq_false_2.
Qed.

Lemma span_no_sep_append v rest :
  no_sep v = true → boundary rest = true →
  span_no_sep (v +:+ rest) = (v, rest).
Proof.
  intros Hv Hb. induction v as [|c v IH].
  - rewrite append_nil_l. destruct rest as [|c rest]; simpl in *; [done|].
    by rewrite Hb.
  - simpl in Hv. apply andb_true_iff in Hv as [Hc Hv].
    rewrite append_cons. simpl. apply negb_true_iff in Hc. rewrite Hc.
    by rewrite IH.
Qed.

Lemma atom_ok_not_sep c :
  Re.atom_ok (Re.ASet true [sep]) c = negb (bool_decide (c = sep)).
Proof.
  unfold Re.atom_ok.
  rewrite (bool_decide_ext (c ∈ [sep]) (c = sep)) by apply list_elem_of_singleton.
  by destruct (bool_decide (c = sep)).
Qed.

(** The greedy repetition of [[^/]] stops at the boundary when the rest of
    the pattern matches there. *)
Lemma m_star_boundary v rest g k x :
  no_sep v = true → boundary rest = true →
  k rest g = Some x →
  Re.m_star (Re.ASet true [sep]) (v +:+ rest) g k = Some x.
Proof.
  intros Hv Hb Hk. induction v as [|c v IH].
  - rewrite append_nil_l. destruct rest as [|c rest]; [done|].
    cbn [Re.m_star]. rewrite atom_ok_not_sep. simpl in Hb. by rewrite Hb.
  - simpl in Hv. apply andb_true_iff in Hv as [Hc Hv].
    rewrite append_cons. cbn [Re.m_star]. rewrite atom_ok_not_sep, Hc.
    by rewrite IH.
Qed.

(** It fails when the rest of the pattern matches neither at the boundary
    nor at any place before it. *)
Lemma m_star_nowhere v rest g k :
  no_sep v = true → boundary rest = true →
  (∀ v1 v2, v = v1 +:+ v2 → k (v2 +:+ rest) g = None) →
  Re.m_star (Re.ASet true [sep]) (v +:+ rest) g k = None.
Proof.
  intros Hv Hb Hk. induction v as [|c v IH].
  - rewrite append_nil_l. specialize (Hk "" "" eq_refl).
    rewrite append_nil_l in Hk.
    destruct rest as [|c rest]; [done|].
    cbn [Re.m_star]. rewrite atom_ok_not_sep. simpl in Hb. by rewrite Hb.
  - simpl in Hv. apply andb_true_iff in Hv as [Hc Hv].
    rewrite append_cons. cbn [Re.m_star]. rewrite atom_ok_not_sep, Hc.
    rewrite IH; [|done|].
    + apply (Hk "" (String c v)). done.
    + intros v1 v2 ->. apply (Hk (String c v1) v2). done.
Qed.

Section Engine.
Variable n0 : nat.

Lemma m_seq_literal text :
  ∀ rest s g k,
    Re.m_seq n0 (literal_nodes text ++ rest) s g k =
    match strip_prefix text s with
    | Some s' => Re.m_seq n0 rest s' g k
    | None => None
    end.
Proof.
  induction text as [|c text IH]; intros rest s g k; [done|].
  cbn [literal_nodes app Re.m_seq Re.m_node Re.m_atom strip_prefix].
  destruct s as [|b s]; [done|].
  cbn [Re.atom_ok]. case_bool_decide; [apply IH|done].
Qed.

Lemma m_node_group name s g k :
  Re.m_node n0 (group_node name) s g k =
  Re.m_atom (Re.ASet true [sep]) Re.QPlus s g
    (λ s' g', k s' (<[name := Re.captured s s']> g')).
Proof. reflexivity. Qed.

Lemma walk_none_any_dict segs :
  ∀ s g1 g2, walk segs s g1 = None → walk segs s g2 = None.
Proof.
  induction segs as [|[text|name] segs IH]; intros s g1 g2; simpl.
  - by destruct (Re.at_end s).
  - destruct s as [|b s]; [done|]. case_bool_decide; [|done].
    destruct (strip_prefix text s); [apply IH|done].
  - destruct s as [|b s]; [done|]. case_bool_decide; [|done].
    destruct (span_no_sep s) as [v rest]. case_bool_decide; [done|apply IH].
Qed.

(** Where the segments do not match after a placeholder has taken all it
    can, they do not match after it has taken less. *)
Lemma walk_reject segs v rest g1 g2 :
  no_sep v = true →
  walk segs rest g1 = None → walk segs (v +:+ rest) g2 = None.
Proof.
  intros Hv H. destruct v as [|c v].
  { rewrite append_nil_l. by eapply walk_none_any_dict. }
  rewrite append_cons. simpl in Hv. apply andb_true_iff in Hv as [Hc _].
  apply negb_true_iff in Hc.
  destruct segs as [|[text|name] segs]; simpl.
  - simpl in H. destruct (Re.at_end rest) eqn:Hr; [done|].
    destruct v as [|c' v]; [|by rewrite append_cons].
    rewrite append_nil_l. destruct rest; [done|done].
  - by rewrite Hc.
  - by rewrite Hc.
Qed.

Lemma no_sep_suffix v1 v2 : no_sep (v1 +:+ v2) = true → no_sep v2 = true.
Proof.
  unfold no_sep. rewrite forallb_str_app. by intros [_ ?]%andb_true_iff.
Qed.

(** The backtracking matcher computes [walk] on the pattern of a list of
    segments. *)
Lemma m_seq_walk segs :
  ∀ s g, Re.m_seq n0 (template_nodes segs ++ [Re.NEol]) s g accept
         = walk segs s g.
Proof.
  induction segs as [|[text|name] segs IH]; intros s g.
  - simpl. by destruct (Re.at_end s).
  - rewrite template_nodes_cons, <- app_assoc.
    change (segment_nodes (Literal text))
      with (literal_nodes (String sep text)).
    rewrite m_seq_literal. cbn [walk].
    destruct (strip_prefix (String sep text) s); [apply IH|done].
  - rewrite template_nodes_cons, <- app_assoc.
    cbn [segment_nodes app Re.m_seq]. cbn [Re.m_node Re.m_atom walk].
    destruct s as [|b s1]; [done|].
    cbn [Re.atom_ok]. case_bool_decide; [|done].
    rewrite m_node_group. cbn [Re.m_atom].
    destruct s1 as [|c s1]; [done|].
    rewrite atom_ok_not_sep. cbn [span_no_sep].
    destruct (bool_decide (c = sep)) eqn:Hc; [done|]. cbn [negb].
    destruct (span_no_sep s1) as [v rest] eqn:Hspan.
    apply span_no_sep_spec in Hspan as (-> & Hv & Hb).
    rewrite bool_decide_eq_false_2 by done.
    destruct (walk segs rest (<[name := String c v]> g)) as [x|] eqn:Hw.
    + apply m_star_boundary; [done|done|].
      rewrite IH.
      change (String c (v +:+ rest)) with (String c v +:+ rest).
      by rewrite captured_append.
    + apply m_star_nowhere; [done|done|].
      intros v1 v2 ->. rewrite IH.
      eapply walk_reject; [by eapply no_sep_suffix|exact Hw].
Qed.
End Engine.

(** *** What a well-formed template accepts *)

Lemma strip_prefix_Some p s rest :
  strip_prefix p s = Some rest → s = p +:+ rest.
Proof.
  revert s. induction p as [|a p IH]; intros s; simpl.
  - by intros [= ->].
  - destruct s as [|b s]; [done|]. case_bool_decide as Hab; [|done].
    intros H. rewrite append_cons, (IH _ H). by subst.
Qed.

Lemma strip_prefix_append p rest : strip_prefix p (p +:+ rest) = Some rest.
Proof.
  induction p as [|a p IH]; [done|].
  rewrite append_cons. simpl. by rewrite bool_decide_eq_true_2.
Qed.

Lemma ends_with_placeholder_cons sg sg' segs :
  ends_with_placeholder (sg :: sg' :: segs) = ends_with_placeholder (sg' :: segs).
Proof. reflexivity. Qed.

Lemma conforms_boundary segs s caps : conforms segs s caps → boundary s = true.
Proof. by destruct 1. Qed.

Lemma conforms_names segs s caps :
  conforms segs s caps → caps.*1 = placeholders segs.
Proof. induction 1; simpl; [done|done|by f_equal]. Qed.

Lemma at_end_inv s : Re.at_end s = true → s = "" ∨ s = String Re.newline "".
Proof.
  destruct s as [|c [|c' s]]; simpl; [by left| |done].
  intros ->%bool_decide_eq_true. by right.
Qed.

Lemma walk_sound segs :
  ∀ s g params, walk segs s g = Some params →
    ∃ caps, params = bind caps g ∧
      (conforms segs s caps ∨
       (ends_with_placeholder segs = false ∧
        ∃ s', s = s' +:+ String Re.newline "" ∧ conforms segs s' caps)).
Proof.
  induction segs as [|[text|name] segs IH]; intros s g params; cbn [walk].
  - destruct (Re.at_end s) eqn:Hs; [|done]. intros [= <-].
    exists []. split; [done|].
    apply at_end_inv in Hs as [->| ->]; [left; constructor|].
    right. split; [done|]. exists "". split; [done|constructor].
  - destruct (strip_prefix (String sep text) s) as [rest|] eqn:Hs; [|done].
    apply strip_prefix_Some in Hs as ->. intros H.
    destruct (IH _ _ _ H) as (caps & -> & [Hc|(He & s' & -> & Hc)]);
      exists caps; (split; [done|]).
    + left. rewrite append_cons. by constructor.
    + right. split.
      * destruct segs as [|sg' segs]; [done|].
        by rewrite ends_with_placeholder_cons.
      * exists (String sep (text +:+ s')). split; [|by constructor].
        by rewrite !append_cons, append_assoc.
  - destruct s as [|c s1]; [done|]. case_bool_decide as Hc; [subst c|done].
    destruct (span_no_sep s1) as [v rest] eqn:Hspan.
    apply span_no_sep_spec in Hspan as (-> & Hv & Hb).
    case_bool_decide as Hne; [done|]. intros H.
    destruct (IH _ _ _ H) as (caps & -> & [Hc|(He & s' & -> & Hc)]);
      exists ((name, v) :: caps); (split; [done|]).
    + left. by constructor.
    + right. destruct segs as [|sg' segs].
      { inversion Hc; subst. by vm_compute in Hb. }
      split; [by rewrite ends_with_placeholder_cons|].
      exists (String sep (v +:+ s')). split; [|by constructor].
      by rewrite append_cons, append_assoc.
Qed.

Lemma walk_complete segs s caps :
  conforms segs s caps → ∀ g, walk segs s g = Some (bind caps g).
Proof.
  induction 1 as [|text segs rest caps Hc IH|name v segs rest caps Hne Hv Hc IH];
    intros g; cbn [walk].
  - done.
  - change (String sep (text +:+ rest)) with (String sep text +:+ rest).
    rewrite strip_prefix_append. apply IH.
  - rewrite bool_decide_eq_true_2 by done.
    rewrite span_no_sep_append by (done || by eapply conforms_boundary).
    rewrite bool_decide_eq_false_2 by done. apply IH.
Qed.

Lemma walk_complete_newline segs s caps :
  conforms segs s caps → ends_with_placeholder segs = false →
  ∀ g, walk segs (s +:+ String Re.newline "") g = Some (bind caps g).
Proof.
  induction 1 as [|text segs rest caps Hc IH|name v segs rest caps Hne Hv Hc IH];
    intros He g.
  - done.
  - rewrite append_cons, append_assoc. cbn [walk].
    change (String sep (text +:+ ?r)) with (String sep text +:+ r).
    rewrite strip_prefix_append. apply IH.
    destruct segs as [|sg' segs]; [done|].
    by rewrite ends_with_placeholder_cons in He.
  - destruct segs as [|sg' segs]; [done|].
    rewrite ends_with_placeholder_cons in He.
    rewrite append_cons, append_assoc. cbn [walk].
    rewrite bool_decide_eq_true_2 by done.
    rewrite span_no_sep_append; [|done|by inversion Hc].
    rewrite bool_decide_eq_false_2 by done. by apply IH.
Qed.

Lemma bind_list_to_map caps :
  NoDup caps.*1 → ∀ g, bind caps g = list_to_map caps ∪ g.
Proof.
  induction caps as [|[n v] caps IH]; intros Hnd g.
  - simpl. by rewrite (left_id_L ∅ (∪)).
  - rewrite fmap_cons in Hnd. apply NoDup_cons in Hnd as [Hn Hnd].
    change (bind ((n, v) :: caps) g) with (bind caps (<[n := v]> g)).
    rewrite IH by done. rewrite list_to_map_cons, <- insert_union_l.
    symmetry. apply insert_union_r. by apply not_elem_of_list_to_map_1.
Qed.

Lemma well_formed_NoDup segs :
  well_formed segs = true → NoDup (placeholders segs).
Proof. intros [_ H]%andb_true_iff. by apply bool_decide_eq_true in H. Qed.

Lemma match_template_nodes segs path :
  Re.match_ (Re.NBol :: template_nodes segs ++ [Re.NEol]) path
  = walk segs path ∅.
Proof.
  unfold Re.match_. cbn [Re.m_seq Re.m_node].
  rewrite bool_decide_eq_true_2 by done. apply m_seq_walk.
Qed.

(** The matcher of a well-formed template accepts the paths described by
    [accepts], and no other. *)
Lemma match_well_formed segs :
  well_formed segs = true →
  ∃ p, _compile_route_template (render segs) = Re.Compiled p ∧
    ∀ path params, Re.match_ p path = Some params ↔ accepts segs path params.
Proof.
  intros Hwf. eexists. split; [by apply compile_render|].
  intros path params. rewrite match_template_nodes.
  pose proof (well_formed_NoDup _ Hwf) as Hnd. split.
  - intros (caps & -> & H)%walk_sound. exists caps. split; [|done].
    rewrite bind_list_to_map, (right_id_L ∅ (∪)); [done|].
    destruct H as [H|(_ & s' & _ & H)];
      by rewrite (conforms_names _ _ _ H).
  - intros (caps & -> & H).
    assert (NoDup caps.*1) as Hnd'.
    { destruct H as [H|(_ & s' & _ & H)];
        by rewrite (conforms_names _ _ _ H). }
    rewrite <- (right_id_L ∅ (∪) (list_to_map caps)),
      <- bind_list_to_map by done.
    destruct H as [H|(He & s' & -> & H)].
    + by apply walk_complete.
    + by apply walk_complete_newline.
Qed.

(** *** A placeholder inside a template *)

Lemma count_sep_append s t : count_sep (s +:+ t) = count_sep s + count_sep t.
Proof.
  induction s as [|c s IH]; [done|]. rewrite append_cons. simpl.
  rewrite IH. lia.
Qed.

Lemma count_sep_no_sep s : no_sep s = true ↔ count_sep s = 0.
Proof.
  unfold no_sep. induction s as [|c s IH]; simpl; [done|].
  case_bool_decide; simpl.
  - split; [done|lia].
  - exact IH.
Qed.

Lemma conforms_count segs s caps :
  forallb segment_ok segs = true → conforms segs s caps →
  count_sep s = length segs.
Proof.
  intros Hok H.
  induction H as [|text segs rest caps Hc IH|name v segs rest caps Hne Hv Hc IH];
    [done|..]; simpl in Hok; apply andb_true_iff in Hok as [Hsg Hok];
    cbn [count_sep length]; rewrite bool_decide_eq_true_2 by done;
    rewrite count_sep_append, IH by done.
  - apply (segment_text_no_sep (Literal text)), count_sep_no_sep in Hsg.
    simpl in Hsg. lia.
  - apply count_sep_no_sep in Hv. lia.
Qed.

Lemma walk_count segs s g params :
  forallb segment_ok segs = true → walk segs s g = Some params →
  count_sep s = length segs.
Proof.
  intros Hok (caps & _ & [H|(_ & s' & -> & H)])%walk_sound.
  - by eapply conforms_count.
  - rewrite count_sep_append, (conforms_count _ _ _ Hok H).
    change (count_sep (String Re.newline "")) with 0. lia.
Qed.

Lemma boundary_append s t :
  boundary s = true → boundary t = true → boundary (s +:+ t) = true.
Proof. by destruct s. Qed.

Lemma walk_app before pathB capsB :
  conforms before pathB capsB →
  ∀ segs s g, boundary s = true →
    walk (before ++ segs) (pathB +:+ s) g = walk segs s (bind capsB g).
Proof.
  induction 1 as [|text before rest caps Hc IH|name v before rest caps Hne Hv Hc IH];
    intros segs s g Hs.
  - done.
  - rewrite append_cons, append_assoc. cbn [app walk].
    change (String sep (text +:+ ?r)) with (String sep text +:+ r).
    rewrite strip_prefix_append. by apply IH.
  - rewrite append_cons, append_assoc. cbn [app walk].
    rewrite bool_decide_eq_true_2 by done.
    rewrite span_no_sep_append;
      [|done|apply boundary_append; [by eapply conforms_boundary|done]].
    rewrite bool_decide_eq_false_2 by done. by apply IH.
Qed.

Lemma placeholders_app l1 l2 :
  placeholders (l1 ++ l2) = placeholders l1 ++ placeholders l2.
Proof.
  induction l1 as [|[text|name] l1 IH]; simpl; [done|done|].
  unfold placeholders in *. simpl. by rewrite IH.
Qed.

Lemma bind_lookup_other caps :
  ∀ g n, n ∉ caps.*1 → bind caps g !! n = g !! n.
Proof.
  induction caps as [|[m v] caps IH]; intros g n Hn; [done|].
  rewrite fmap_cons in Hn. apply not_elem_of_cons in Hn as [Hne Hn].
  change (bind ((m, v) :: caps) g) with (bind caps (<[m := v]> g)).
  rewrite IH by done. simpl in Hne. by rewrite lookup_insert_ne.
Qed.

(** In a well-formed template, with the segments before and after a
    placeholder matched by [pathB] and [pathA], the piece [v] in the place of
    the placeholder is accepted exactly when it is non-empty and holds no
    separator, and it is then the value of the placeholder. *)
Lemma placeholder_in_context before name after pathB capsB pathA capsA v p :
  well_formed (before ++ Placeholder name :: after) = true →
  conforms before pathB capsB →
  conforms after pathA capsA →
  _compile_route_template (render (before ++ Placeholder name :: after))
  = Re.Compiled p →
  (is_Some (Re.match_ p (pathB +:+ String sep (v +:+ pathA)))
   ↔ v ≠ "" ∧ no_sep v = true) ∧
  (∀ params, Re.match_ p (pathB +:+ String sep (v +:+ pathA)) = Some params →
     params !! name = Some v).
Proof.
  intros Hwf HB HA Hp.
  rewrite compile_render in Hp by done. injection Hp as <-.
  rewrite match_template_nodes, (walk_app _ _ _ HB) by done.
  apply andb_true_iff in Hwf as [Hok Hnd]. apply bool_decide_eq_true in Hnd.
  rewrite forallb_app in Hok. apply andb_true_iff in Hok as [_ Hok].
  simpl in Hok. apply andb_true_iff in Hok as [_ HokA].
  rewrite placeholders_app in Hnd. apply NoDup_app in Hnd as (_ & _ & Hnd).
  change (placeholders (Placeholder name :: after))
    with (name :: placeholders after) in Hnd.
  apply NoDup_cons in Hnd as [Hfresh _].
  rewrite <- (conforms_names _ _ _ HA) in Hfresh.
  pose proof (conforms_boundary _ _ _ HA) as HbA.
  assert (v ≠ "" → no_sep v = true →
          walk (Placeholder name :: after) (String sep (v +:+ pathA))
               (bind capsB ∅)
          = Some (bind capsA (<[name := v]> (bind capsB ∅)))) as Hgood.
  { intros Hne Hv. cbn [walk]. rewrite bool_decide_eq_true_2 by done.
    rewrite span_no_sep_append by done.
    rewrite bool_decide_eq_false_2 by done. by apply walk_complete. }
  assert (is_Some (walk (Placeholder name :: after)
                        (String sep (v +:+ pathA)) (bind capsB ∅))
          → v ≠ "" ∧ no_sep v = true) as Honly.
  { intros [params H]. cbn [walk] in H.
    rewrite bool_decide_eq_true_2 in H by done.
    destruct (span_no_sep (v +:+ pathA)) as [v' rest] eqn:Hspan.
    pose proof (span_no_sep_spec _ _ _ Hspan) as (Heq & Hv' & Hb).
    case_bool_decide as Hne; [done|].
    apply walk_count in H; [|done].
    assert (count_sep v = 0) as Hv.
    { apply (f_equal count_sep) in Heq. rewrite !count_sep_append in Heq.
      rewrite (conforms_count _ _ _ HokA HA), H in Heq.
      apply count_sep_no_sep in Hv'. lia. }
    apply count_sep_no_sep in Hv.
    rewrite span_no_sep_append in Hspan by done.
    injection Hspan as <- <-. done. }
  split.
  - split; [exact Honly|]. intros [Hne Hv]. rewrite Hgood by done. eauto.
  - intros params H. destruct Honly as [Hne Hv]; [by eexists|].
    rewrite Hgood in H by done. injection H as <-.
    rewrite bind_lookup_other by done. apply lookup_insert_eq.
Qed.

(** ** Placeholders in any template that compiles *)

Lemma elem_of_rev {A} (l : list A) x : x ∈ rev l ↔ x ∈ l.
Proof. rewrite !list_elem_of_In. symmetry. apply in_rev. Qed.

Lemma nodes_groups_app l1 l2 :
  Re.nodes_groups (l1 ++ l2) = Re.nodes_groups l1 ++ Re.nodes_groups l2.
Proof. unfold Re.nodes_groups. by rewrite map_app, concat_app. Qed.

Lemma node_groups_NGroup name body :
  Re.node_groups (Re.NGroup name body) = name :: Re.nodes_groups body.
Proof.
  cbn [Re.node_groups]. f_equal.
  induction body as [|x l IH]; [done|].
  change (Re.nodes_groups (x :: l))
    with (Re.node_groups x ++ Re.nodes_groups l).
  by rewrite <- IH.
Qed.

Lemma nodes_groups_cons x l :
  Re.nodes_groups (x :: l) = Re.node_groups x ++ Re.nodes_groups l.
Proof. reflexivity. Qed.

Lemma occurs_in_mono x l l' :
  (∀ y, y ∈ l → y ∈ l') → occurs_in x l → occurs_in x l'.
Proof.
  intros H Ho. destruct Ho as [l Hx|name body l Hg Hb].
  - apply occurs_in_here. auto.
  - eapply occurs_in_group; eauto.
Qed.

Lemma occurs_in_cons x y l : occurs_in x l → occurs_in x (y :: l).
Proof. apply occurs_in_mono. intros z Hz. by right. Qed.

Lemma occurs_in_atom name body a q q' l :
  occurs_in (Re.NGroup name body) (Re.NAtom a q :: l) →
  occurs_in (Re.NGroup name body) (Re.NAtom a q' :: l).
Proof.
  intros Ho. inversion Ho as [l0 Hin|name' body' l0 Hg Hb]; subst.
  - apply elem_of_cons in Hin as [?|Hin]; [done|].
    apply occurs_in_here. by right.
  - apply elem_of_cons in Hg as [?|Hg]; [done|].
    eapply occurs_in_group; [by right|done].
Qed.

Lemma occurs_in_groups name body l :
  occurs_in (Re.NGroup name body) l → name ∈ Re.nodes_groups l.
Proof.
  induction 1 as [l Hin|name' body' l Hg Hb IH].
  - apply list_elem_of_split in Hin as (l1 & l2 & ->).
    rewrite nodes_groups_app, nodes_groups_cons, node_groups_NGroup.
    apply elem_of_app. right. by left.
  - apply list_elem_of_split in Hg as (l1 & l2 & ->).
    rewrite nodes_groups_app, nodes_groups_cons, node_groups_NGroup.
    apply elem_of_app. right. right. apply elem_of_app. by left.
Qed.

(** *** What the parser keeps *)

Lemma parse_from_preserves (P : Re.pstate → Prop) :
  (∀ st c st', P st → Re.step st c = inl st' → P st') →
  ∀ s st st', P st → Re.parse_from st s = inl st' → P st'.
Proof.
  intros Hstep. induction s as [|c s IH]; intros st st' HP H.
  - simpl in H. by injection H as <-.
  - simpl in H. destruct (Re.step st c) as [st1|f] eqn:Hs; [|done].
    eapply IH; [|exact H]. by eapply Hstep.
Qed.

Lemma occ_push x st nd : occ_state x st → occ_state x (Re.push st nd).
Proof.
  intros [H|H]; [left|by right]. by apply occurs_in_cons.
Qed.

Lemma occ_set_mode x st m : occ_state x st → occ_state x (Re.set_mode st m).
Proof. done. Qed.

Lemma occ_open_group x st name :
  occ_state x st → occ_state x (Re.open_group st name).
Proof.
  intros [H|(frame & Hin & H)]; right.
  - exists (name, Re.p_cur st). split; [by left|done].
  - exists frame. split; [by right|done].
Qed.

Lemma occ_quantify name body st q st' :
  occ_state (Re.NGroup name body) st → Re.quantify st q = inl st' →
  occ_state (Re.NGroup name body) st'.
Proof.
  unfold Re.quantify. intros Ho H.
  destruct (Re.p_cur st) as [|[a [] | | |] rest] eqn:Hc; try done.
  injection H as <-. destruct Ho as [Ho|Ho]; [left|by right].
  rewrite Hc in Ho. simpl. by eapply occurs_in_atom.
Qed.

Lemma occ_step_normal name body st c st' :
  occ_state (Re.NGroup name body) st → Re.step_normal st c = inl st' →
  occ_state (Re.NGroup name body) st'.
Proof.
  unfold Re.step_normal. intros Ho H.
  repeat case_bool_decide;
    try (injection H as <-);
    eauto using occ_push, occ_set_mode, occ_quantify; try done.
  destruct (Re.p_open st) as [|[nm outer] rest] eqn:Hopen; [done|].
  injection H as <-. destruct Ho as [Ho|(frame & Hin & Ho)].
  - left. simpl. eapply occurs_in_group; [by left|].
    eapply occurs_in_mono; [|exact Ho]. intros y Hy. by apply elem_of_rev.
  - rewrite Hopen in Hin. apply elem_of_cons in Hin as [->|Hin].
    + left. simpl. by apply occurs_in_cons.
    + right. exists frame. by split.
Qed.

Lemma close_name_inl st name st' :
  Re.close_name st name = inl st' →
  st' = Re.open_group st (Some name) ∧ name ∉ Re.p_names st.
Proof.
  unfold Re.close_name. intros H.
  repeat (case_bool_decide || destruct (negb _)); try done.
  by injection H as <-.
Qed.

Lemma step_set_inl st negated acc c st' :
  Re.step_set st negated acc c = inl st' →
  (∃ nd, st' = Re.push st nd ∧ Re.node_groups nd = []) ∨
  (∃ m, st' = Re.set_mode st m).
Proof.
  unfold Re.step_set. intros H. repeat case_bool_decide; try done.
  - destruct acc; [done|]. injection H as <-. left. by eexists.
  - injection H as <-. right. by eexists.
Qed.

Lemma step_occ name body st c st' :
  occ_state (Re.NGroup name body) st → Re.step st c = inl st' →
  occ_state (Re.NGroup name body) st'.
Proof.
  unfold Re.step. intros Ho H.
  destruct (Re.p_mode st) as [| | | |acc| |negated acc].
  - by eapply occ_step_normal.
  - case_bool_decide; [by injection H as <-|].
    eapply occ_step_normal; [|exact H]. by apply occ_open_group.
  - case_bool_decide; [by injection H as <-|done].
  - case_bool_decide; [by injection H as <-|done].
  - case_bool_decide.
    + apply close_name_inl in H as [-> _]. by apply occ_open_group.
    + case_bool_decide; [done|]. by injection H as <-.
  - case_bool_decide; [by injection H as <-|].
    apply step_set_inl in H as [(nd & -> & _)|(m & ->)];
      [by apply occ_push|done].
  - apply step_set_inl in H as [(nd & -> & _)|(m & ->)];
      [by apply occ_push|done].
Qed.

Lemma opened_push st nd :
  Re.node_groups nd = [] → Re.opened (Re.push st nd) = Re.opened st.
Proof.
  intros H. unfold Re.opened, Re.push. cbn [Re.p_open Re.p_cur].
  change (rev (nd :: Re.p_cur st)) with (rev (Re.p_cur st) ++ [nd]).
  rewrite nodes_groups_app, (nodes_groups_cons nd []), H.
  by rewrite !app_nil_r.
Qed.

Lemma opened_open_group st name :
  Re.opened (Re.open_group st name) = Re.opened st ++ [name].
Proof.
  unfold Re.opened, Re.open_group. cbn [Re.p_open Re.p_cur].
  change (rev ((name, Re.p_cur st) :: Re.p_open st))
    with (rev (Re.p_open st) ++ [(name, Re.p_cur st)]).
  rewrite map_app, concat_app. simpl. by rewrite !app_nil_r, app_assoc.
Qed.

Lemma opened_close m cur name outer rest names :
  Re.opened {| Re.p_mode := m;
               Re.p_cur := Re.NGroup name (rev cur) :: outer;
               Re.p_open := rest; Re.p_names := names |}
  = Re.opened {| Re.p_mode := m; Re.p_cur := cur;
                 Re.p_open := (name, outer) :: rest; Re.p_names := names |}.
Proof.
  unfold Re.opened. cbn [Re.p_open Re.p_cur].
  change (rev ((name, outer) :: rest)) with (rev rest ++ [(name, outer)]).
  change (rev (Re.NGroup name (rev cur) :: outer))
    with (rev outer ++ [Re.NGroup name (rev cur)]).
  rewrite map_app, concat_app, nodes_groups_app,
    (nodes_groups_cons _ []), node_groups_NGroup.
  simpl. by rewrite !app_nil_r, <- !app_assoc.
Qed.

Lemma opened_atom m a q q' cur opn names :
  Re.opened {| Re.p_mode := m; Re.p_cur := Re.NAtom a q :: cur;
               Re.p_open := opn; Re.p_names := names |}
  = Re.opened {| Re.p_mode := m; Re.p_cur := Re.NAtom a q' :: cur;
                 Re.p_open := opn; Re.p_names := names |}.
Proof.
  unfold Re.opened. cbn [Re.p_open Re.p_cur].
  change (rev (?x :: cur)) with (rev cur ++ [x]).
  by rewrite !nodes_groups_app.
Qed.

Lemma names_push st nd :
  Re.node_groups nd = [] → names_state st → names_state (Re.push st nd).
Proof. intros H Hn. unfold names_state. by rewrite opened_push. Qed.

Lemma names_open_group st name :
  match name with Some n => n ∉ Re.p_names st | None => True end →
  names_state st → names_state (Re.open_group st name).
Proof.
  intros Hname [Hp Hnd]. unfold names_state.
  rewrite opened_open_group, omap_app.
  destruct name as [n|]; simpl.
  - split; [|by apply NoDup_cons].
    rewrite Hp. symmetry. apply Permutation_cons_append.
  - by rewrite app_nil_r.
Qed.

Lemma names_quantify st q st' :
  names_state st → Re.quantify st q = inl st' → names_state st'.
Proof.
  unfold Re.quantify. intros Hn H.
  destruct st as [m cur opn names]. simpl in H.
  destruct cur as [|[a [] | | |] rest]; try done.
  injection H as <-. unfold names_state in *.
  by rewrite (opened_atom _ a q Re.QOne).
Qed.

Lemma names_step_normal st c st' :
  names_state st → Re.step_normal st c = inl st' → names_state st'.
Proof.
  unfold Re.step_normal. intros Hn H.
  repeat case_bool_decide;
    try (injection H as <-);
    eauto using names_push, names_quantify; try done.
  destruct st as [m cur opn names]. simpl in H.
  destruct opn as [|[nm outer] rest]; [done|].
  injection H as <-. unfold names_state in *.
  by rewrite opened_close.
Qed.

Lemma names_step st c st' :
  names_state st → Re.step st c = inl st' → names_state st'.
Proof.
  unfold Re.step. intros Hn H.
  destruct (Re.p_mode st) as [| | | |acc| |negated acc].
  - by eapply names_step_normal.
  - case_bool_decide; [by injection H as <-|].
    eapply names_step_normal; [|exact H]. by apply names_open_group.
  - case_bool_decide; [by injection H as <-|done].
  - case_bool_decide; [by injection H as <-|done].
  - case_bool_decide.
    + apply close_name_inl in H as [-> Hfresh]. by apply names_open_group.
    + case_bool_decide; [done|]. by injection H as <-.
  - case_bool_decide; [by injection H as <-|].
    apply step_set_inl in H as [(nd & -> & Hnd)|(m & ->)];
      [by apply names_push|done].
  - apply step_set_inl in H as [(nd & -> & Hnd)|(m & ->)];
      [by apply names_push|done].
Qed.

(** The pattern that [re.compile] gives has no group name twice. *)
Lemma compile_group_names pattern p :
  Re.compile pattern = Re.Compiled p → NoDup (group_names p).
Proof.
  unfold Re.compile. intros H.
  destruct (Re.parse_from Re.init pattern) as [st|[msg|]] eqn:Hp; try done.
  assert (names_state st) as [Hperm Hnd].
  { eapply (parse_from_preserves names_state); [|split|exact Hp].
    - intros ????. by eapply names_step.
    - done.
    - constructor. }
  unfold Re.finish in H.
  destruct st as [m cur opn names]. simpl in *.
  destruct m; try done; [|by case_bool_decide].
  destruct opn; [|done]. injection H as <-.
  unfold group_names. unfold Re.opened in Hperm. simpl in Hperm.
  by rewrite Hperm.
Qed.

(** *** What the matcher does with a group *)

Lemma node_nested_ind (P : Re.node → Prop) :
  (∀ a q, P (Re.NAtom a q)) → P Re.NBol → P Re.NEol →
  (∀ name body, Forall P body → P (Re.NGroup name body)) →
  ∀ nd, P nd.
Proof.
  intros HA HB HE HG. fix IH 1.
  intros [a q| | |name body]; [apply HA|apply HB|apply HE|].
  apply HG. induction body as [|x l IHl]; constructor; [apply IH|exact IHl].
Qed.

Lemma m_star_ext a s g k1 k2 :
  (∀ s' g', k1 s' g' = k2 s' g') →
  Re.m_star a s g k1 = Re.m_star a s g k2.
Proof.
  intros H. induction s as [|c s IH]; simpl; [apply H|].
  by rewrite IH, H.
Qed.

Lemma m_atom_ext a q s g k1 k2 :
  (∀ s' g', k1 s' g' = k2 s' g') →
  Re.m_atom a q s g k1 = Re.m_atom a q s g k2.
Proof.
  intros H. destruct q, s as [|c s]; simpl;
    rewrite ?(m_star_ext _ _ _ k1 k2 H), ?H; done.
Qed.

(** The matcher looks at its continuation only through what it returns. *)
Lemma m_node_ext n0 nd :
  ∀ s g k1 k2, (∀ s' g', k1 s' g' = k2 s' g') →
    Re.m_node n0 nd s g k1 = Re.m_node n0 nd s g k2.
Proof.
  induction nd as [a q| | |name body IH] using node_nested_ind;
    intros s g k1 k2 H.
  - by apply m_atom_ext.
  - simpl. by rewrite H.
  - simpl. by rewrite H.
  - cbn [Re.m_node].
    set (K1 := λ s' g', k1 s' (Re.set_group name (Re.captured s s') g')).
    set (K2 := λ s' g', k2 s' (Re.set_group name (Re.captured s s') g')).
    assert (∀ s' g', K1 s' g' = K2 s' g') as HK by (intros; apply H).
    clearbody K1 K2. revert s g K1 K2 HK.
    induction IH as [|x l Hx _ IHl]; intros s g K1 K2 HK; [apply HK|].
    apply Hx. intros s' g'. by apply IHl.
Qed.

Lemma m_seq_ext n0 l :
  ∀ s g k1 k2, (∀ s' g', k1 s' g' = k2 s' g') →
    Re.m_seq n0 l s g k1 = Re.m_seq n0 l s g k2.
Proof.
  induction l as [|x l IH]; intros s g k1 k2 H; [apply H|].
  simpl. apply m_node_ext. intros s' g'. by apply IH.
Qed.

Lemma m_node_NGroup n0 name body s g k :
  Re.m_node n0 (Re.NGroup name body) s g k =
  Re.m_seq n0 body s g
    (λ s' g', k s' (Re.set_group name (Re.captured s s') g')).
Proof.
  cbn [Re.m_node].
  set (K := λ s' g', k s' (Re.set_group name (Re.captured s s') g')).
  clearbody K. revert s g K.
  induction body as [|x l IH]; intros s g K; [done|].
  cbn [Re.m_seq]. apply m_node_ext. intros s' g'. apply IH.
Qed.

Lemma m_seq_app n0 l1 l2 :
  ∀ s g k, Re.m_seq n0 (l1 ++ l2) s g k
           = Re.m_seq n0 l1 s g (λ s' g', Re.m_seq n0 l2 s' g' k).
Proof.
  induction l1 as [|x l1 IH]; intros s g k; [done|].
  simpl. apply m_node_ext. intros s' g'. apply IH.
Qed.

(** What a greedy repetition takes is made of characters of its atom, and
    it can take any such prefix after which the rest matches. *)
Lemma m_star_reach a s g k r :
  Re.m_star a s g k = Some r →
  ∃ v rest, s = v +:+ rest ∧ Re.forallb_str (Re.atom_ok a) v = true ∧
    k rest g = Some r.
Proof.
  induction s as [|c s IH]; simpl; intros H.
  - by exists "", "".
  - destruct (Re.atom_ok a c) eqn:Hc; [|by exists "", (String c s)].
    destruct (Re.m_star a s g k) as [r'|] eqn:Hs;
      [|by exists "", (String c s)].
    destruct (IH H) as (v & rest & -> & Hv & Hk).
    exists (String c v), rest. split_and!; [done| |done].
    simpl. by rewrite Hc.
Qed.

Lemma m_star_accepts a v rest g k :
  Re.forallb_str (Re.atom_ok a) v = true → is_Some (k rest g) →
  is_Some (Re.m_star a (v +:+ rest) g k).
Proof.
  intros Hv Hk. induction v as [|c v IH].
  - rewrite append_nil_l. destruct rest as [|c rest]; [done|].
    simpl. destruct (Re.atom_ok a c); [|done].
    by destruct (Re.m_star a rest g k).
  - simpl in Hv. apply andb_true_iff in Hv as [Hc Hv].
    rewrite append_cons. simpl. rewrite Hc.
    destruct (IH Hv) as [r ->]. by eexists.
Qed.

Lemma no_sep_atom_ok v :
  Re.forallb_str (Re.atom_ok (Re.ASet true [sep])) v = no_sep v.
Proof.
  unfold no_sep. induction v as [|c v IH]; [done|].
  cbn [Re.forallb_str]. by rewrite atom_ok_not_sep, IH.
Qed.

(** The group of a placeholder takes a non-empty string without a
    separator, and binds the name to it. *)
Lemma group_node_reach n0 n s g k r :
  Re.m_node n0 (group_node n) s g k = Some r →
  ∃ v rest, s = v +:+ rest ∧ v ≠ "" ∧ no_sep v = true ∧
    k rest (<[n := v]> g) = Some r.
Proof.
  rewrite m_node_group. destruct s as [|c s]; [done|].
  cbn [Re.m_atom]. destruct (Re.atom_ok _ c) eqn:Hc; [|done].
  intros (v & rest & -> & Hv & Hk)%m_star_reach.
  exists (String c v), rest. split_and!; [done|done| |].
  - rewrite <- no_sep_atom_ok. cbn [Re.forallb_str]. by rewrite Hc.
  - by rewrite <- append_cons, captured_append in Hk.
Qed.

Lemma group_node_accepts n0 n v rest g k :
  v ≠ "" → no_sep v = true → is_Some (k rest (<[n := v]> g)) →
  is_Some (Re.m_node n0 (group_node n) (v +:+ rest) g k).
Proof.
  intros Hne Hv Hk. rewrite m_node_group.
  destruct v as [|c v]; [done|].
  rewrite <- no_sep_atom_ok in Hv. cbn [Re.forallb_str] in Hv.
  apply andb_true_iff in Hv as [Hc Hv].
  rewrite append_cons. cbn [Re.m_atom]. rewrite Hc.
  apply m_star_accepts; [done|].
  by rewrite <- append_cons, captured_append.
Qed.

(** Where a match goes on after a node, and what the node leaves of the
    groups bound so far. *)
Lemma m_atom_reach a q s g k r :
  Re.m_atom a q s g k = Some r → ∃ s', k s' g = Some r.
Proof.
  destruct q.
  - destruct s as [|c s]; simpl; [done|].
    destruct (Re.atom_ok a c); [eauto|done].
  - assert (Re.m_atom a Re.QStar s g k = Re.m_star a s g k) as ->
      by by destruct s.
    intros (v & rest & _ & _ & H)%m_star_reach. eauto.
  - destruct s as [|c s]; simpl; [done|].
    destruct (Re.atom_ok a c); [|done].
    intros (v & rest & _ & _ & H)%m_star_reach. eauto.
  - destruct s as [|c s]; simpl; [eauto|].
    destruct (Re.atom_ok a c); [|eauto].
    destruct (k s g) eqn:Hs; [|eauto]. intros <-. eauto.
Qed.

Lemma m_seq_reach_of (P : Re.node → Prop) n0 l :
  (∀ nd, P nd → ∀ s g k r, Re.m_node n0 nd s g k = Some r →
     ∃ s' g', k s' g' = Some r ∧
       ∀ x, Some x ∉ Re.node_groups nd → g' !! x = g !! x) →
  Forall P l →
  ∀ s g k r, Re.m_seq n0 l s g k = Some r →
    ∃ s' g', k s' g' = Some r ∧
      ∀ x, Some x ∉ Re.nodes_groups l → g' !! x = g !! x.
Proof.
  intros HP Hl. induction Hl as [|nd l Hnd _ IH]; intros s g k r H.
  - by exists s, g.
  - simpl in H. destruct (HP nd Hnd _ _ _ _ H) as (s1 & g1 & H1 & Hg1).
    destruct (IH _ _ _ _ H1) as (s2 & g2 & H2 & Hg2).
    exists s2, g2. split; [done|]. intros x Hx.
    rewrite nodes_groups_cons in Hx.
    rewrite Hg2, Hg1; [done| |]; intros ?; apply Hx, elem_of_app; auto.
Qed.

Lemma m_node_reach n0 nd :
  ∀ s g k r, Re.m_node n0 nd s g k = Some r →
    ∃ s' g', k s' g' = Some r ∧
      ∀ x, Some x ∉ Re.node_groups nd → g' !! x = g !! x.
Proof.
  induction nd as [a q| | |name body IH] using node_nested_ind;
    intros s g k r H.
  - apply m_atom_reach in H as [s' H]. by exists s', g.
  - simpl in H. case_bool_decide; [|done]. by exists s, g.
  - simpl in H. destruct (Re.at_end s); [|done]. by exists s, g.
  - rewrite m_node_NGroup in H.
    eapply (m_seq_reach_of _ n0 body (λ nd Hnd, Hnd) IH) in H
      as (s' & g' & H & Hg).
    eexists _, _. split; [exact H|]. intros x Hx.
    rewrite node_groups_NGroup in Hx.
    assert (name ≠ Some x) by (intros ->; apply Hx; by left).
    rewrite <- Hg by (intros ?; apply Hx; by right).
    destruct name as [nm|]; [|done]. simpl.
    apply lookup_insert_ne. congruence.
Qed.

Lemma m_seq_reach n0 l s g k r :
  Re.m_seq n0 l s g k = Some r →
  ∃ s' g', k s' g' = Some r ∧
    ∀ x, Some x ∉ Re.nodes_groups l → g' !! x = g !! x.
Proof.
  apply (m_seq_reach_of (λ _, True)).
  - intros nd _. apply m_node_reach.
  - by apply Forall_forall.
Qed.

Lemma group_names_app l1 l2 :
  group_names (l1 ++ l2) = group_names l1 ++ group_names l2.
Proof. unfold group_names. by rewrite nodes_groups_app, omap_app. Qed.

Lemma group_names_cons_group name body l :
  group_names (Re.NGroup name body :: l)
  = match name with Some n => [n] | None => [] end
    ++ group_names body ++ group_names l.
Proof.
  unfold group_names.
  rewrite nodes_groups_cons, node_groups_NGroup, omap_app.
  by destruct name.
Qed.

Lemma elem_of_group_names n l :
  n ∈ group_names l ↔ Some n ∈ Re.nodes_groups l.
Proof.
  unfold group_names. rewrite list_elem_of_omap. split.
  - intros (x & Hx & Hid). unfold id in Hid. by subst.
  - intros H. by exists (Some n).
Qed.

(** In a pattern without a group name twice, a match leaves the name of a
    placeholder group bound to what that group has taken. *)
Lemma placeholder_value n l :
  occurs_in (group_node n) l →
  ∀ n0 s g k r,
    NoDup (group_names l) →
    Re.m_seq n0 l s g k = Some r →
    ∃ s' g' v, k s' g' = Some r ∧
      g' !! n = Some v ∧ v ≠ "" ∧ no_sep v = true.
Proof.
  induction 1 as [l Hin|name body l Hg Hb IH]; intros n0 s g k r Hnd H.
  - apply list_elem_of_split in Hin as (l1 & l2 & ->).
    rewrite m_seq_app in H.
    apply m_seq_reach in H as (s1 & g1 & H & _).
    cbn [Re.m_seq] in H.
    apply group_node_reach in H as (v & rest & -> & Hne & Hv & H).
    apply m_seq_reach in H as (s2 & g2 & H & Hg2).
    exists s2, g2, v. split_and!; [done| |done|done].
    rewrite Hg2; [apply lookup_insert_eq|].
    rewrite group_names_app in Hnd. apply NoDup_app in Hnd as (_ & _ & Hnd).
    unfold group_node in Hnd. rewrite group_names_cons_group in Hnd.
    apply NoDup_cons in Hnd as [Hn _].
    intros Hin. apply Hn. simpl. by apply elem_of_group_names.
  - apply list_elem_of_split in Hg as (l1 & l2 & ->).
    rewrite m_seq_app in H.
    apply m_seq_reach in H as (s1 & g1 & H & _).
    cbn [Re.m_seq] in H. rewrite m_node_NGroup in H.
    rewrite group_names_app in Hnd. apply NoDup_app in Hnd as (_ & _ & Hnd).
    rewrite group_names_cons_group in Hnd.
    assert (n ∈ group_names body) as Hnb
      by (apply elem_of_group_names; by eapply occurs_in_groups).
    assert (name ≠ Some n ∧ NoDup (group_names body) ∧ n ∉ group_names l2)
      as (Hname & Hndb & Hl2).
    { assert (NoDup (group_names body ++ group_names l2) ∧ name ≠ Some n)
        as [Hnd' ?].
      { destruct name as [nm|]; [|done].
        apply NoDup_cons in Hnd as [Hnm Hnd]. split; [done|].
        intros [= ->]. apply Hnm, elem_of_app. by left. }
      apply NoDup_app in Hnd' as (? & Hdis & _). split_and!; auto. }
    apply (IH _ _ _ _ _ Hndb) in H as (s2 & g2 & v & H & Hv & Hne & Hsep).
    apply m_seq_reach in H as (s3 & g3 & H & Hg3).
    exists s3, g3, v. split_and!; [done| |done|done].
    rewrite Hg3 by by rewrite <- elem_of_group_names.
    destruct name as [nm|]; [|done]. simpl.
    rewrite lookup_insert_ne; [done|congruence].
Qed.

(** *** The parser at a placeholder *)

Lemma close_name_not_identifier st name :
  Re.isidentifier name = false → ∃ f, Re.close_name st name = inr f.
Proof.
  intros H. unfold Re.close_name. rewrite H.
  case_bool_decide; [by eexists|].
  destruct (Re.forallb_str Re.is_ascii name); by eexists.
Qed.

Lemma close_name_taken st name :
  name ∈ Re.p_names st → ∃ f, Re.close_name st name = inr f.
Proof.
  intros H. unfold Re.close_name.
  case_bool_decide; [by eexists|].
  destruct (negb _); [by eexists|]. destruct (negb _); [by eexists|].
  rewrite bool_decide_eq_true_2 by done. by eexists.
Qed.

Lemma parse_group_header name st rest :
  Re.p_mode st = Re.MNormal →
  Re.forallb_str name_char name = true →
  Re.parse_from st ("/(?P<" +:+ name +:+ String ">" rest) =
  match Re.close_name (Re.push st (Re.NAtom (Re.AChar sep) Re.QOne)) name with
  | inl st' => Re.parse_from st' rest
  | inr f => inr f
  end.
Proof.
  intros Hm Hname. destruct st as [m cur opn names]. simpl in Hm. subst m.
  change ("/(?P<" +:+ name +:+ String ">" rest)
    with (String "/" (String "(" (String "?" (String "P" (String "<"
            ("" +:+ name +:+ String ">" rest)))))).
  cbn [Re.parse_from].
  change (Re.step _ "/")
    with (@inl Re.pstate Re.failure
            {| Re.p_mode := Re.MNormal;
               Re.p_cur := Re.NAtom (Re.AChar sep) Re.QOne :: cur;
               Re.p_open := opn; Re.p_names := names |}).
  cbv iota beta.
  change (Re.step _ "(")
    with (@inl Re.pstate Re.failure
            {| Re.p_mode := Re.MOpen;
               Re.p_cur := Re.NAtom (Re.AChar sep) Re.QOne :: cur;
               Re.p_open := opn; Re.p_names := names |}).
  cbv iota beta.
  change (Re.step _ "?")
    with (@inl Re.pstate Re.failure
            {| Re.p_mode := Re.MOpenQ;
               Re.p_cur := Re.NAtom (Re.AChar sep) Re.QOne :: cur;
               Re.p_open := opn; Re.p_names := names |}).
  cbv iota beta.
  change (Re.step _ "P")
    with (@inl Re.pstate Re.failure
            {| Re.p_mode := Re.MOpenQP;
               Re.p_cur := Re.NAtom (Re.AChar sep) Re.QOne :: cur;
               Re.p_open := opn; Re.p_names := names |}).
  cbv iota beta.
  change (Re.step _ "<")
    with (@inl Re.pstate Re.failure
            {| Re.p_mode := Re.MName "";
               Re.p_cur := Re.NAtom (Re.AChar sep) Re.QOne :: cur;
               Re.p_open := opn; Re.p_names := names |}).
  cbv iota beta. rewrite append_nil_l.
  rewrite (parse_name name _ "") by done.
  rewrite append_nil_l. cbn [Re.parse_from]. reflexivity.
Qed.

(** From the ordinary mode: the group of the placeholder is read as a
    whole, or the pattern is refused. *)
Lemma parse_placeholder_normal n st :
  Re.p_mode st = Re.MNormal → Re.isidentifier n = true →
  (∃ st', Re.parse_from st ("/(?P<" +:+ n +:+ ">[^/]+)") = inl st' ∧
     occ_state (group_node n) st') ∨
  (∃ f, Re.parse_from st ("/(?P<" +:+ n +:+ ">[^/]+)") = inr f).
Proof.
  intros Hm Hid. destruct (decide (n ∈ Re.p_names st)) as [Hin|Hin].
  - right.
    change (">[^/]+)") with (String ">" "[^/]+)").
    rewrite parse_group_header by by (done || apply identifier_no_gt).
    destruct (close_name_taken
                (Re.push st (Re.NAtom (Re.AChar sep) Re.QOne)) n Hin)
      as [f ->].
    by exists f.
  - left. rewrite parse_group by done. eexists. split; [done|].
    left. apply occurs_in_here. by left.
Qed.

Lemma parse_set_plain text :
  ∀ st negated acc rest, Re.p_mode st = Re.MSet negated acc →
    Re.forallb_str set_plain text = true →
    ∃ acc', Re.parse_from st (text +:+ rest)
            = Re.parse_from (Re.set_mode st (Re.MSet negated acc')) rest.
Proof.
  induction text as [|c text IH]; intros st negated acc rest Hm H.
  - exists acc. rewrite append_nil_l. destruct st; simpl in *; by subst.
  - simpl in H. apply andb_true_iff in H as [Hc H].
    apply andb_true_iff in Hc as [Hc1 Hc2].
    apply negb_true_iff in Hc1. apply negb_true_iff in Hc2.
    rewrite append_cons. cbn [Re.parse_from].
    unfold Re.step. rewrite Hm. unfold Re.step_set. rewrite Hc1, Hc2.
    destruct (IH (Re.set_mode st (Re.MSet negated (acc ++ [c])))
                negated (acc ++ [c]) rest eq_refl H) as [acc' ->].
    by exists acc'.
Qed.

Lemma identifier_set_plain n :
  Re.isidentifier n = true → Re.forallb_str set_plain n = true.
Proof.
  intros H. eapply forallb_str_impl; [|by apply identifier_chars].
  intros c. destruct c as [[] [] [] [] [] [] [] []]; by vm_compute.
Qed.

Lemma identifier_has_no_sep s t :
  Re.isidentifier (s +:+ String sep t) = false.
Proof.
  destruct (Re.isidentifier _) eqn:H; [|done].
  apply identifier_chars in H. rewrite forallb_str_app in H.
  apply andb_true_iff in H as [_ H]. by simpl in H.
Qed.

(** From any mode: when the pattern is read to its end, the group of the
    placeholder is in what has been read. *)
Lemma parse_placeholder n st rest st' :
  Re.isidentifier n = true →
  Re.parse_from st (("/(?P<" +:+ n +:+ ">[^/]+)") +:+ rest) = inl st' →
  occ_state (group_node n) st'.
Proof.
  intros Hid H. rewrite parse_from_app in H.
  assert (∀ st0, Re.p_mode st0 = Re.MNormal →
            match Re.parse_from st0 ("/(?P<" +:+ n +:+ ">[^/]+)") with
            | inl st1 => Re.parse_from st1 rest
            | inr f => inr f
            end = inl st' → occ_state (group_node n) st') as Hnormal.
  { intros st0 Hm0 H0.
    destruct (parse_placeholder_normal n st0 Hm0 Hid)
      as [(st1 & Hp & Ho)|(f & Hp)]; rewrite Hp in H0; [|done].
    eapply (parse_from_preserves (occ_state (group_node n)));
      [|exact Ho|exact H0].
    intros ????. by apply step_occ. }
  assert ("/(?P<" +:+ n +:+ ">[^/]+)" = ("/(?P<" +:+ n +:+ ">") +:+ "[^/]+)")
    as E by by rewrite !append_assoc.
  destruct (Re.p_mode st) as [| | | |acc| |negated acc] eqn:Hm.
  - by apply (Hnormal st).
  - apply (Hnormal (Re.open_group st None)); [done|].
    change ("/(?P<" +:+ n +:+ ">[^/]+)")
      with (String "/" ("(?P<" +:+ n +:+ ">[^/]+)")) in *.
    cbn [Re.parse_from] in *.
    replace (Re.step (Re.open_group st None) "/") with (Re.step st "/");
      [done|].
    unfold Re.step. by rewrite Hm.
  - change ("/(?P<" +:+ n +:+ ">[^/]+)")
      with (String "/" ("(?P<" +:+ n +:+ ">[^/]+)")) in H.
    cbn [Re.parse_from] in H. unfold Re.step in H. by rewrite Hm in H.
  - change ("/(?P<" +:+ n +:+ ">[^/]+)")
      with (String "/" ("(?P<" +:+ n +:+ ">[^/]+)")) in H.
    cbn [Re.parse_from] in H. unfold Re.step in H. by rewrite Hm in H.
  - rewrite <- (append_assoc "/(?P<" n ">[^/]+)") in H.
    change (">[^/]+)") with (String ">" "[^/]+)") in H.
    rewrite (parse_name _ st acc) in H; [|done|].
    2:{ rewrite forallb_str_app, (identifier_no_gt n) by done. by vm_compute. }
    cbn [Re.parse_from] in H. unfold Re.step in H. simpl Re.p_mode in H.
    cbv beta iota in H.
    rewrite bool_decide_eq_true_2 in H by done.
    destruct (close_name_not_identifier
                (Re.set_mode st (Re.MName (acc +:+ "/(?P<" +:+ n)))
                (acc +:+ "/(?P<" +:+ n)) as [f Hf].
    { apply (identifier_has_no_sep acc ("(?P<" +:+ n)). }
    by rewrite Hf in H.
  - rewrite E in H.
    change ("/(?P<" +:+ n +:+ ">") with (String "/" ("(?P<" +:+ n +:+ ">"))
      in H.
    rewrite append_cons in H.
    cbn [Re.parse_from] in H. unfold Re.step at 1 in H. rewrite Hm in H.
    rewrite bool_decide_eq_false_2 in H by done.
    change (Re.step_set st false [] "/")
      with (@inl Re.pstate Re.failure
              (Re.set_mode st (Re.MSet false ["/"%char]))) in H.
    cbv iota beta in H.
    destruct (parse_set_plain ("(?P<" +:+ n +:+ ">")
                (Re.set_mode st (Re.MSet false ["/"%char])) false
                ["/"%char] "[^/]+)" eq_refl) as [acc' Hs].
    { rewrite !forallb_str_app, (identifier_set_plain n) by done.
      by vm_compute. }
    by rewrite Hs in H.
  - rewrite E in H.
    destruct (parse_set_plain ("/(?P<" +:+ n +:+ ">") st negated acc
                "[^/]+)" Hm) as [acc' Hs].
    { rewrite !forallb_str_app, (identifier_set_plain n) by done.
      by vm_compute. }
    by rewrite Hs in H.
Qed.

(** In the pattern of a template that compiles, a placeholder whose name
    is an identifier is there as its group, and no group name comes
    twice. *)
Lemma placeholder_compiled template before n after p :
  segments_of template = before ++ ("{" +:+ n +:+ "}") :: after →
  Re.isidentifier n = true →
  _compile_route_template template = Re.Compiled p →
  occurs_in (group_node n) p ∧ NoDup (group_names p).
Proof.
  intros Hseg Hid Hc. split; [|by eapply compile_group_names].
  unfold _compile_route_template in Hc.
  fold (segments_of template) in Hc.
  rewrite Hseg, fold_left_append, append_nil_l, map_app, join_app, map_cons,
    join_cons in Hc.
  change (compile_segment ("{" +:+ n +:+ "}"))
    with (compile_segment (segment_text (Placeholder n))) in Hc.
  rewrite compile_segment_placeholder in Hc.
  set (G := "/(?P<" +:+ n +:+ ">[^/]+)") in Hc.
  rewrite !append_assoc in Hc.
  rewrite <- (append_assoc "^") in Hc.
  unfold Re.compile in Hc. rewrite parse_from_app in Hc.
  destruct (Re.parse_from Re.init _) as [st0|[msg|]]; [|done|done].
  destruct (Re.parse_from st0 _) as [st'|[msg|]] eqn:Hp; [|done|done].
  apply parse_placeholder in Hp; [|done].
  unfold Re.finish in Hc. destruct st' as [m cur opn names].
  simpl in Hc. destruct m; try done; [|by case_bool_decide].
  destruct opn; [|done]. injection Hc as <-.
  destruct Hp as [Ho|(frame & Hin & _)]; [|by apply elem_of_nil in Hin].
  eapply occurs_in_mono; [|exact Ho]. intros y Hy. by apply elem_of_rev.
Qed.

(** C4, as stated, fails at the template ["/{a>b}"]: its one segment is a
    placeholder by the test of the compiler, the template compiles, and
    the matcher rejects ["/xyz"], whose piece [xyz] is not empty and holds
    no separator; it accepts ["/b>xyz"]. *)
Lemma placeholder_may_want_more :
  segments_of "/{a>b}" = ["{a>b}"] ∧
  Py.startswith "{a>b}" "{" && Py.endswith "{a>b}" "}" = true ∧
  _compile_route_template "/{a>b}" = Re.Compiled a_gt_b_pattern ∧
  "xyz" ≠ "" ∧ no_sep "xyz" = true ∧
  Re.match_ a_gt_b_pattern "/xyz" = None ∧
  Re.match_ a_gt_b_pattern "/b>xyz" = Some {[ "a" := "b>xyz" ]}.
Proof. split_and!; by vm_compute. Qed.

(** C4, as amended.  In any template that compiles, a placeholder whose
    name is an identifier is compiled to the group [group_node], and every
    path that the matcher accepts binds the name to a string that is not
    empty and holds no separator.  That group takes exactly the strings
    that are not empty and hold no separator.  In a well-formed template,
    the piece of a path in the place of a placeholder is accepted exactly
    when it is not empty and holds no separator, and it is the value bound
    to the name of the placeholder.  The matcher of ["/items/{name}"]
    rejects ["/items/a/b"] and ["/items/"], and accepts ["/items/a-b"] with
    [name] bound to ["a-b"]. *)
Theorem placeholder_matches_one_piece :
  (∀ (template : string) (before after : list string) (name_ : string)
     (p : Re.Pattern),
     segments_of template = before ++ ("{" +:+ name_ +:+ "}") :: after →
     Re.isidentifier name_ = true →
     _compile_route_template template = Re.Compiled p →
     occurs_in (group_node name_) p ∧
     ∀ path params, Re.match_ p path = Some params →
       ∃ v, params !! name_ = Some v ∧ v ≠ "" ∧ no_sep v = true) ∧
  (∀ (n0 : nat) (name_ s : string) (g : Re.groupdict) (k : Re.cont),
     is_Some (Re.m_node n0 (group_node name_) s g k) ↔
     ∃ v rest, s = v +:+ rest ∧ v ≠ "" ∧ no_sep v = true ∧
       is_Some (k rest (<[name_ := v]> g))) ∧
  (∀ (before after : list segment) (name_ pathB pathA v : string)
     (capsB capsA : list (string * string)) (p : Re.Pattern),
     well_formed (before ++ Placeholder name_ :: after) = true →
     conforms before pathB capsB →
     conforms after pathA capsA →
     _compile_route_template (render (before ++ Placeholder name_ :: after))
     = Re.Compiled p →
     (is_Some (Re.match_ p (pathB +:+ String sep (v +:+ pathA)))
      ↔ v ≠ "" ∧ no_sep v = true) ∧
     (∀ params,
        Re.match_ p (pathB +:+ String sep (v +:+ pathA)) = Some params →
        params !! name_ = Some v)) ∧
  _compile_route_template "/items/{name}" = Re.Compiled items_pattern ∧
  Re.match_ items_pattern "/items/a/b" = None ∧
  Re.match_ items_pattern "/items/" = None ∧
  Re.match_ items_pattern "/items/a-b" = Some {[ "name" := "a-b" ]}.
Proof.
  split_and!; [| |intros; by eapply placeholder_in_context|by vm_compute..].
  - intros template before after name_ p Hseg Hid Hc.
    destruct (placeholder_compiled _ _ _ _ _ Hseg Hid Hc) as [Ho Hnd].
    split; [done|]. intros path params Hm. unfold Re.match_ in Hm.
    destruct (placeholder_value _ _ Ho _ _ _ _ _ Hnd Hm)
      as (s' & g' & v & [= <-] & Hv & Hne & Hsep).
    by exists v.
  - intros n0 name_ s g k. split.
    + intros [r (v & rest & -> & Hne & Hv & Hk)%group_node_reach].
      exists v, rest. by rewrite Hk.
    + intros (v & rest & -> & Hne & Hv & Hk). by apply group_node_accepts.
Qed.

Lemma placeholder_matches_one_piece_witness :
  (occurs_in (group_node "name") v1_0_pattern ∧
   ∀ path params, Re.match_ v1_0_pattern path = Some params →
     ∃ v, params !! "name" = Some v ∧ v ≠ "" ∧ no_sep v = true) ∧
  (is_Some (Re.match_ items_pattern "/items/a-b")
   ↔ "a-b" ≠ "" ∧ no_sep "a-b" = true) ∧
  (∀ params, Re.match_ items_pattern "/items/a-b" = Some params →
     params !! "name" = Some "a-b").
Proof.
  destruct placeholder_matches_one_piece as (Hany & _ & Hwf & _).
  split.
  - apply (Hany "/v1.0/{name}" ["v1.0"] [] "name" v1_0_pattern);
      vm_compute; reflexivity.
  - apply (Hwf [Literal "items"] [] "name" "/items" "" "a-b" [] []
             items_pattern).
    + vm_compute. reflexivity.
    + apply (conforms_literal "items" [] "" []). constructor.
    + constructor.
    + vm_compute. reflexivity.
Defined.

(** C5, at the failing input: the matcher of ["/x"] accepts the path made
    of ["/x"] and a newline. *)
Theorem trailing_newline_accepted :
  _compile_route_template "/x" = Re.Compiled x_pattern ∧
  Re.match_ x_pattern ("/x" +:+ String Re.newline "") = Some ∅ ∧
  "/x" +:+ String Re.newline "" ≠ "/x".
Proof. split_and!; [by vm_compute|by vm_compute|]. by vm_compute. Qed.

(** C6, at the failing inputs: the literal segment [a.b] is matched by
    [axb], and the literal segment [a+b] is matched by [aab] and not by
    [a+b]. *)
Theorem literal_segment_is_a_pattern :
  _compile_route_template "/a.b" = Re.Compiled a_dot_b_pattern ∧
  Re.match_ a_dot_b_pattern "/axb" = Some ∅ ∧
  _compile_route_template "/a+b" = Re.Compiled a_plus_b_pattern ∧
  Re.match_ a_plus_b_pattern "/aab" = Some ∅ ∧
  Re.match_ a_plus_b_pattern "/a+b" = None.
Proof. split_and!; by vm_compute. Qed.

(** The round trip of the spec: ["/a/{x}/b/{y}"] on ["/a/1/b/2"]. *)
Example capture_round_trip :
  ∃ p, _compile_route_template "/a/{x}/b/{y}" = Re.Compiled p ∧
       Re.match_ p "/a/1/b/2" = Some {[ "x" := "1"; "y" := "2" ]}.
Proof. eexists. split; by vm_compute. Qed.


(** * Further properties *)

(** ** What a registration does to later matches *)

Lemma first_match_app l1 l2 path :
  first_match (l1 ++ l2) path =
  match first_match l1 path with
  | Some x => Some x
  | None => first_match l2 path
  end.
Proof.
  induction l1 as [|[r p] l1 IH]; simpl; [done|].
  by destruct (Re.match_ p path).
Qed.

Lemma first_match_Some l path route params :
  first_match l path = Some (route, params) →
  ∃ p, (route, p) ∈ l ∧ Re.match_ p path = Some params.
Proof.
  induction l as [|[r p] l IH]; simpl; [done|].
  destruct (Re.match_ p path) eqn:Hp.
  - intros [= -> ->]. exists p. split; [by left|done].
  - intros H. destruct (IH H) as (p' & Hin & Hm). exists p'.
    split; [by right|done].
Qed.

Lemma first_match_is_Some l path route p params :
  (route, p) ∈ l → Re.match_ p path = Some params →
  is_Some (first_match l path).
Proof.
  induction l as [|[r q] l IH]; simpl; [by intros ?%elem_of_nil|].
  intros [[= <- <-]|Hin]%elem_of_cons Hm.
  - rewrite Hm. eauto.
  - destruct (Re.match_ q path); eauto.
Qed.

(** X1: a route that registers is looked at first for its method, and
    changes nothing else: a later match returns it when its pattern matches
    the path, and what it returned before otherwise. *)
Theorem new_route_only_shadows (self self' : Router) (route : Route)
    (prefix : string) :
  add_route self (Route_ route) prefix = (self', None) →
  ∃ p, _compile_route_template (prefix +:+ template route) = Re.Compiled p ∧
    ∀ m path,
      (match_ self' m path).2 =
      if bool_decide (m = method route) then
        match Re.match_ p path with
        | Some params => Some (route, params)
        | None => (match_ self m path).2
        end
      else (match_ self m path).2.
Proof.
  simpl. intros H.
  destruct (pairs_add_route_Route _ _ _ _ H) as (p & Hc & Hp & Hne).
  exists p. split; [done|]. intros m path. rewrite !match_pairs.
  case_bool_decide as Hm.
  - subst m. rewrite Hp. simpl. by destruct (Re.match_ p path).
  - by rewrite Hne.
Qed.

Lemma new_route_only_shadows_witness :
  ∃ p, _compile_route_template ("" +:+ template route_b) = Re.Compiled p ∧
    ∀ m path,
      (match_ (add_route router_a (Route_ route_b) "").1 m path).2 =
      if bool_decide (m = method route_b) then
        match Re.match_ p path with
        | Some params => Some (route_b, params)
        | None => (match_ router_a m path).2
        end
      else (match_ router_a m path).2.
Proof.
  apply (new_route_only_shadows router_a
           (add_route router_a (Route_ route_b) "").1 route_b "").
  vm_compute. reflexivity.
Defined.

Lemma add_routes_flatten_all route_likes :
  ∀ self prefix,
    add_routes self route_likes prefix
    = add_flat self (flatten_all route_likes prefix).
Proof.
  unfold flatten_all.
  induction route_likes as [|x l IH]; intros self prefix; simpl; [done|].
  rewrite add_flat_app, <- add_route_flatten.
  destruct (add_route self x prefix) as [self' [e|]]; auto.
Qed.

Lemma compiled_pairs_cons_ok route prefix flat p :
  _compile_route_template (prefix +:+ template route) = Re.Compiled p →
  compiled_pairs ((route, prefix) :: flat) (method route)
  = (route, p) :: compiled_pairs flat (method route).
Proof.
  intros Hc. unfold compiled_pairs. simpl.
  by rewrite bool_decide_eq_true_2, Hc.
Qed.

Lemma compiled_pairs_cons_other route prefix flat m :
  m ≠ method route →
  compiled_pairs ((route, prefix) :: flat) m = compiled_pairs flat m.
Proof.
  intros Hm. unfold compiled_pairs. simpl.
  by rewrite bool_decide_eq_false_2.
Qed.

Lemma add_flat_pairs flat :
  ∀ self self', add_flat self flat = (self', None) →
    ∀ m, pairs self' m = rev (compiled_pairs flat m) ++ pairs self m.
Proof.
  induction flat as [|[r q] flat IH]; intros self self' H m; simpl in H.
  - by injection H as ->.
  - destruct (add_route_Route self r q) as [s1 [e|]] eqn:H1; [done|].
    rewrite (IH _ _ H m).
    destruct (pairs_add_route_Route _ _ _ _ H1) as (p & Hc & Hp & Hne).
    destruct (decide (m = method r)) as [->|Hm].
    + rewrite (compiled_pairs_cons_ok _ _ _ _ Hc), Hp. simpl.
      by rewrite <- app_assoc.
    + by rewrite compiled_pairs_cons_other, Hne.
Qed.

(** X2: after a batch that registers, [match] walks through the routes of
    the batch that have the method asked for, the last registered first,
    and then through the routes that were there before. *)
Theorem match_after_batch (self self' : Router) (route_likes : list RouteLike)
    (prefix m path : string) :
  add_routes self route_likes prefix = (self', None) →
  (match_ self' m path).2 =
  match first_match (rev (compiled_pairs (flatten_all route_likes prefix) m))
                    path with
  | Some found => Some found
  | None => (match_ self m path).2
  end.
Proof.
  rewrite add_routes_flatten_all. intros H.
  by rewrite !match_pairs, (add_flat_pairs _ _ _ H), first_match_app.
Qed.

Lemma match_after_batch_witness :
  (match_ (add_routes router_a [Route_ route_b; Route_ route_c] "").1
          "GET" "/x").2 =
  match first_match
          (rev (compiled_pairs
                  (flatten_all [Route_ route_b; Route_ route_c] "") "GET"))
          "/x" with
  | Some found => Some found
  | None => (match_ router_a "GET" "/x").2
  end.
Proof.
  apply (match_after_batch router_a
           (add_routes router_a [Route_ route_b; Route_ route_c] "").1).
  vm_compute. reflexivity.
Defined.

Lemma elem_of_compiled_pairs flat m route p :
  (route, p) ∈ compiled_pairs flat m ↔
  ∃ prefix, (route, prefix) ∈ flat ∧ method route = m ∧
    _compile_route_template (prefix +:+ template route) = Re.Compiled p.
Proof.
  unfold compiled_pairs. rewrite list_elem_of_omap. split.
  - intros ([r q] & Hin & H). simpl in H.
    case_bool_decide as Hm; [|done].
    destruct (_compile_route_template (q +:+ template r)) eqn:Hc; [|done..].
    injection H as -> ->. eauto.
  - intros (q & Hin & Hm & Hc). exists (route, q). split; [done|]. simpl.
    by rewrite bool_decide_eq_true_2, Hc.
Qed.

(** X3: on a router made from a list of routes and groups that all
    register, [match] finds a route exactly when a registered route of the
    method has a pattern that matches the path, and the route it returns is
    a registered one, with the parameters of its own pattern. *)
Theorem match_sound_and_complete (self : Router) (route_likes : list RouteLike)
    (m path : string) :
  Router_init (Some route_likes) = (self, None) →
  (is_Some (match_ self m path).2 ↔
   ∃ route prefix p params,
     (route, prefix) ∈ flatten_all route_likes "" ∧ method route = m ∧
     _compile_route_template (prefix +:+ template route) = Re.Compiled p ∧
     Re.match_ p path = Some params) ∧
  (∀ route params, (match_ self m path).2 = Some (route, params) →
     ∃ prefix p,
       (route, prefix) ∈ flatten_all route_likes "" ∧ method route = m ∧
       _compile_route_template (prefix +:+ template route) = Re.Compiled p ∧
       Re.match_ p path = Some params).
Proof.
  unfold Router_init. simpl default. rewrite add_routes_flatten_all.
  intros H. rewrite match_pairs, (add_flat_pairs _ _ _ H).
  assert (pairs Router_empty m = []) as -> by done.
  rewrite app_nil_r.
  assert (∀ route params,
            first_match (rev (compiled_pairs (flatten_all route_likes "") m))
                        path = Some (route, params) →
            ∃ prefix p,
              (route, prefix) ∈ flatten_all route_likes "" ∧ method route = m ∧
              _compile_route_template (prefix +:+ template route)
              = Re.Compiled p ∧
              Re.match_ p path = Some params) as Hsound.
  { intros route params (p & Hin & Hm)%first_match_Some.
    apply list_elem_of_In, in_rev, list_elem_of_In in Hin.
    apply elem_of_compiled_pairs in Hin as (q & Hin & Hmeth & Hc).
    by exists q, p. }
  split; [split|exact Hsound].
  - intros [[route params] Hf].
    destruct (Hsound _ _ Hf) as (q & p & ? & ? & ? & ?).
    by exists route, q, p, params.
  - intros (route & q & p & params & Hin & Hmeth & Hc & Hm).
    eapply first_match_is_Some; [|exact Hm].
    apply list_elem_of_In, in_rev. rewrite rev_involutive.
    apply list_elem_of_In, elem_of_compiled_pairs. eauto.
Qed.

Lemma match_sound_and_complete_witness :
  (is_Some (match_ router_a "GET" "/x").2 ↔
   ∃ route prefix p params,
     (route, prefix) ∈ flatten_all [Route_ route_a] "" ∧
     method route = "GET" ∧
     _compile_route_template (prefix +:+ template route) = Re.Compiled p ∧
     Re.match_ p "/x" = Some params) ∧
  (∀ route params, (match_ router_a "GET" "/x").2 = Some (route, params) →
     ∃ prefix p,
       (route, prefix) ∈ flatten_all [Route_ route_a] "" ∧
       method route = "GET" ∧
       _compile_route_template (prefix +:+ template route) = Re.Compiled p ∧
       Re.match_ p "/x" = Some params).
Proof.
  apply (match_sound_and_complete router_a [Route_ route_a] "GET" "/x").
  vm_compute. reflexivity.
Defined.

(** ** When a batch registers *)

Lemma add_flat_succeeds_iff flat :
  ∀ self,
    (∃ self', add_flat self flat = (self', None)) ↔
    NoDup (flat_names flat) ∧
    (∀ n, n ∈ flat_names flat → _routes_by_name self !! n = None) ∧
    (∀ route prefix, (route, prefix) ∈ flat →
       ∃ p, _compile_route_template (prefix +:+ template route)
            = Re.Compiled p).
Proof.
  induction flat as [|[r q] flat IH]; intros self.
  - simpl. split; [|by eauto]. intros _. split_and!.
    + constructor.
    + by intros n ?%elem_of_nil.
    + by intros ?? ?%elem_of_nil.
  - cbn [add_flat flat_names map fst]. split.
    + intros [self' H].
      destruct (add_route_Route self r q) as [s1 [e|]] eqn:H1; [done|].
      destruct (add_route_Route_ok _ _ _ _ H1) as (Hfresh & p & Hc & Hs1).
      destruct (proj1 (IH s1) (ex_intro _ self' H)) as (Hnd & Hnew & Hcomp).
      assert (∀ n, n ∈ flat_names flat →
                   n ≠ name r ∧ _routes_by_name self !! n = None) as Hn.
      { intros n Hn. specialize (Hnew n Hn). rewrite Hs1 in Hnew.
        simpl in Hnew. apply lookup_insert_None in Hnew as [? ?]. done. }
      split_and!.
      * apply NoDup_cons. split; [|done]. intros Hin.
        by destruct (Hn _ Hin).
      * intros n [->|Hin]%elem_of_cons; [done|]. by apply Hn.
      * intros route prefix [[= -> ->]|Hin]%elem_of_cons; [eauto|].
        by apply Hcomp.
    + intros (Hnd & Hnew & Hcomp). apply NoDup_cons in Hnd as [Hnotin Hnd].
      destruct (Hcomp r q) as [p Hc]; [by left|].
      destruct (add_route_Route_compiled self r q p) as [s1 H1];
        [apply Hnew; by left|done|].
      rewrite H1. apply IH. split_and!; [done| |].
      * intros n Hin.
        destruct (add_route_Route_ok _ _ _ _ H1) as (_ & p' & _ & ->). simpl.
        rewrite lookup_insert_ne; [apply Hnew; by right|].
        intros <-. done.
      * intros route prefix Hin. apply Hcomp. by right.
Qed.

(** X4: a list of routes and groups registers as a whole exactly when the
    names of its routes are pairwise distinct, none of them is in the name
    index, and the prefix and template of every route compile. *)
Theorem batch_registers_iff (self : Router) (route_likes : list RouteLike)
    (prefix : string) :
  (∃ self', add_routes self route_likes prefix = (self', None)) ↔
  NoDup (flat_names (flatten_all route_likes prefix)) ∧
  (∀ n, n ∈ flat_names (flatten_all route_likes prefix) →
     _routes_by_name self !! n = None) ∧
  (∀ route prefix', (route, prefix') ∈ flatten_all route_likes prefix →
     ∃ p, _compile_route_template (prefix' +:+ template route)
          = Re.Compiled p).
Proof. rewrite add_routes_flatten_all. apply add_flat_succeeds_iff. Qed.

Lemma add_flat_names flat :
  ∀ self self', add_flat self flat = (self', None) →
    ∀ n, _routes_by_name self' !! n =
         match list_find (λ rp, name rp.1 = n) flat with
         | Some (_, (route, _)) => Some route
         | None => _routes_by_name self !! n
         end.
Proof.
  induction flat as [|[r q] flat IH]; intros self self' H n; simpl in H.
  - by injection H as ->.
  - destruct (add_route_Route self r q) as [s1 [e|]] eqn:H1; [done|].
    pose proof (proj1 (add_flat_succeeds_iff flat s1) (ex_intro _ _ H))
      as (_ & Hnew & _).
    destruct (add_route_Route_ok _ _ _ _ H1) as (Hfresh & p & Hc & Hs1).
    rewrite (IH _ _ H n). cbn [list_find]. simpl.
    case_decide as Hn.
    + subst n. destruct (list_find _ flat) as [[i [r' q']]|] eqn:Hf.
      * apply list_find_Some in Hf as (Hi & Hname & _). simpl in Hname.
        assert (name r ∈ flat_names flat) as Hin.
        { unfold flat_names. apply list_elem_of_fmap. exists (r', q').
          split; [done|]. by eapply list_elem_of_lookup_2. }
        specialize (Hnew _ Hin). rewrite Hs1 in Hnew. simpl in Hnew.
        by rewrite lookup_insert_eq in Hnew.
      * rewrite Hs1. simpl. by rewrite lookup_insert_eq.
    + destruct (list_find _ flat) as [[i [r' q']]|] eqn:Hf; [done|].
      simpl. rewrite Hs1. simpl. by rewrite lookup_insert_ne.
Qed.

(** X5: after a batch that registers, every route of the batch is found in
    the name index under its name, the routes that were in the index are
    still there, and no other name is. *)
Theorem names_after_batch (self self' : Router) (route_likes : list RouteLike)
    (prefix : string) :
  add_routes self route_likes prefix = (self', None) →
  (∀ route prefix', (route, prefix') ∈ flatten_all route_likes prefix →
     _routes_by_name self' !! name route = Some route) ∧
  (∀ n route, _routes_by_name self !! n = Some route →
     _routes_by_name self' !! n = Some route) ∧
  (∀ n, is_Some (_routes_by_name self' !! n) →
     is_Some (_routes_by_name self !! n) ∨
     n ∈ flat_names (flatten_all route_likes prefix)).
Proof.
  intros H. split_and!.
  - rewrite add_routes_flatten_all in H.
    pose proof (proj1 (add_flat_succeeds_iff _ _) (ex_intro _ _ H))
      as (Hnd & _ & _).
    intros route q Hin. rewrite (add_flat_names _ _ _ H).
    destruct (list_find _ _) as [[i [r' q']]|] eqn:Hf.
    + apply list_find_Some in Hf as (Hi & Hname & _). simpl in Hname.
      apply list_elem_of_lookup in Hin as [j Hj].
      assert (i = j) as ->.
      { apply (NoDup_lookup _ i j (name route) Hnd); unfold flat_names;
          rewrite list_lookup_fmap.
        - rewrite Hi. simpl. by rewrite Hname.
        - by rewrite Hj. }
      rewrite Hi in Hj. by injection Hj as -> _.
    + apply list_find_None in Hf. rewrite Forall_forall in Hf.
      by destruct (Hf _ Hin).
  - intros n route Hn. pose proof (add_routes_keeps_name route_likes self
                                      prefix n route Hn) as Hk.
    by rewrite H in Hk.
  - rewrite add_routes_flatten_all in H.
    intros n. rewrite (add_flat_names _ _ _ H).
    destruct (list_find _ _) as [[i [r' q']]|] eqn:Hf; [|by left].
    intros _. right. apply list_find_Some in Hf as (Hi & Hname & _).
    simpl in Hname. subst n. unfold flat_names.
    apply list_elem_of_fmap. exists (r', q'). split; [done|].
    by eapply list_elem_of_lookup_2.
Qed.

Lemma batch_registers_iff_witness :
  ∃ self', add_routes Router_empty [Route_ route_a; Route_ route_c] ""
           = (self', None).
Proof.
  apply (proj2 (batch_registers_iff Router_empty
                  [Route_ route_a; Route_ route_c] "")).
  change (flatten_all [Route_ route_a; Route_ route_c] "")
    with [(route_a, ""); (route_c, "")].
  split_and!.
  - apply (bool_decide_unpack _). vm_compute. exact I.
  - intros n _. apply lookup_empty.
  - intros route prefix' [[= -> ->]|[[= -> ->]|[]%elem_of_nil]%elem_of_cons]
                         %elem_of_cons; eexists; vm_compute; reflexivity.
Defined.

Lemma names_after_batch_witness :
  (∀ route prefix',
     (route, prefix') ∈ flatten_all [Route_ route_b; Route_ route_c] "" →
     _routes_by_name
       (add_routes router_a [Route_ route_b; Route_ route_c] "").1
       !! name route = Some route) ∧
  (∀ n route, _routes_by_name router_a !! n = Some route →
     _routes_by_name
       (add_routes router_a [Route_ route_b; Route_ route_c] "").1
       !! n = Some route) ∧
  (∀ n, is_Some (_routes_by_name
                   (add_routes router_a [Route_ route_b; Route_ route_c] "").1
                   !! n) →
     is_Some (_routes_by_name router_a !! n) ∨
     n ∈ flat_names (flatten_all [Route_ route_b; Route_ route_c] "")).
Proof.
  apply (names_after_batch router_a
           (add_routes router_a [Route_ route_b; Route_ route_c] "").1
           [Route_ route_b; Route_ route_c] "").
  vm_compute. reflexivity.
Defined.

(** ** The route registered last *)






(** ** A template that does not compile *)

Lemma add_route_refused (self self' : Router) (route : Route)
    (prefix msg : string) :
  add_route self (Route_ route) prefix = (self', Some (re_error msg)) →
  _routes_by_name self !! name route = None ∧
  _routes_by_name self' = <[name route := route]> (_routes_by_name self) ∧
  default [] (_routes_by_method self' !! method route)
  = route :: default [] (_routes_by_method self !! method route) ∧
  (∀ m, default [] (_route_res_by_method self' !! m)
        = default [] (_route_res_by_method self !! m)) ∧
  (∀ prefix', add_route self' (Route_ route) prefix'
              = (self', Some (ValueError (duplicate_msg route)))).
Proof.
  simpl. unfold add_route_Route, Py.dd_insert_front, Py.dd_getitem.
  case_bool_decide as Hn; [done|]. apply eq_None_not_Some in Hn.
  intros H.
  assert (_routes_by_name self' = <[name route := route]> (_routes_by_name self)
          ∧ default [] (_routes_by_method self' !! method route)
            = route :: default [] (_routes_by_method self !! method route)
          ∧ ∀ m, default [] (_route_res_by_method self' !! m)
                 = default [] (_route_res_by_method self !! m))
    as (Hname & Hroutes & Hres).
  { destruct (_routes_by_method self !! method route) as [rs|] eqn:Hm;
    destruct (_route_res_by_method self !! method route) as [ps|] eqn:Hr;
    destruct (_compile_route_template (prefix +:+ template route));
      simplify_eq; simpl; rewrite ?lookup_insert_eq;
      (split_and!; [done|done|]); intros m; try done;
      (destruct (decide (m = method route)) as [->|Hne];
       [by rewrite lookup_insert_eq, Hr
       |by rewrite lookup_insert_ne]). }
  split_and!; [done|done|done|done|].
  intros prefix'. rewrite bool_decide_eq_true_2; [done|].
  rewrite Hname, lookup_insert_eq. eauto.
Qed.

(** X6: when the template of a route with a new name is refused by
    [re.compile], the exception leaves the route in the name index and at
    the front of the routes of its method, and no pattern is added; the
    same route can then not be registered again, whatever its prefix. *)
Theorem refused_template_leaves_route (self self' : Router) (route : Route)
    (prefix msg : string) :
  add_route self (Route_ route) prefix = (self', Some (re_error msg)) →
  _routes_by_name self !! name route = None ∧
  _routes_by_name self' = <[name route := route]> (_routes_by_name self) ∧
  default [] (_routes_by_method self' !! method route)
  = route :: default [] (_routes_by_method self !! method route) ∧
  (∀ m, default [] (_route_res_by_method self' !! m)
        = default [] (_route_res_by_method self !! m)) ∧
  (∀ prefix', add_route self' (Route_ route) prefix'
              = (self', Some (ValueError (duplicate_msg route)))).
Proof. apply add_route_refused. Qed.

Lemma refused_template_leaves_route_witness :
  _routes_by_name router_a !! name route_bad = None ∧
  _routes_by_name router_bad
  = <[name route_bad := route_bad]> (_routes_by_name router_a) ∧
  default [] (_routes_by_method router_bad !! method route_bad)
  = route_bad :: default [] (_routes_by_method router_a !! method route_bad) ∧
  (∀ m, default [] (_route_res_by_method router_bad !! m)
        = default [] (_route_res_by_method router_a !! m)) ∧
  (∀ prefix', add_route router_bad (Route_ route_bad) prefix'
              = (router_bad, Some (ValueError (duplicate_msg route_bad)))).
Proof.
  apply (refused_template_leaves_route router_a router_bad route_bad ""
           "missing group name").
  vm_compute. reflexivity.
Defined.

(** X7: after such a refusal the route has no pattern of its own, and
    [match] pairs it with the pattern that was first for its method: a path
    which that pattern matches is answered with the refused route. *)
Theorem refused_route_takes_first_pattern (self self' : Router) (route : Route)
    (prefix msg path : string) (p : Re.Pattern) (ps : list Re.Pattern)
    (params : Re.groupdict) :
  add_route self (Route_ route) prefix = (self', Some (re_error msg)) →
  _route_res_by_method self !! method route = Some (p :: ps) →
  Re.match_ p path = Some params →
  (match_ self' (method route) path).2 = Some (route, params).
Proof.
  intros H Hres Hm.
  destruct (add_route_refused _ _ _ _ _ H) as (_ & _ & Hroutes & Hres' & _).
  rewrite match_pairs. unfold pairs.
  rewrite Hroutes, Hres', Hres. simpl. by rewrite Hm.
Qed.

Lemma refused_route_takes_first_pattern_witness :
  (match_ router_bad "GET" "/x").2 = Some (route_bad, ∅).
Proof.
  apply (refused_route_takes_first_pattern router_a router_bad route_bad ""
           "missing group name" "/x" x_pattern [] ∅); vm_compute; reflexivity.
Defined.

(** ** The two lists of a method *)

Lemma add_route_Route_ValueError self route prefix self' msg :
  add_route_Route self route prefix = (self', Some (ValueError msg)) →
  self' = self.
Proof.
  unfold add_route_Route. case_bool_decide; [by intros [= <-]|].
  destruct (Py.dd_getitem _ _) as [res rr].
  by destruct (_compile_route_template _).
Qed.

Lemma in_sync_add_route_Route self route prefix self' :
  in_sync self → add_route_Route self route prefix = (self', None) →
  in_sync self'.
Proof.
  intros Hs H. destruct (add_route_Route_ok _ _ _ _ H) as (_ & p & _ & ->).
  intros m. simpl. destruct (decide (m = method route)) as [->|Hne].
  - rewrite !lookup_insert_eq. simpl. by rewrite Hs.
  - rewrite !lookup_insert_ne by done. apply Hs.
Qed.

Lemma add_flat_in_sync flat :
  ∀ self self' e,
    in_sync self → add_flat self flat = (self', e) →
    (e = None ∨ ∃ msg, e = Some (ValueError msg)) →
    in_sync self'.
Proof.
  induction flat as [|[r q] flat IH]; intros self self' e Hs H He; simpl in H.
  - by injection H as -> _.
  - destruct (add_route_Route self r q) as [s1 [e1|]] eqn:H1.
    + injection H as -> <-. destruct He as [?|[msg [= ->]]]; [done|].
      by rewrite (add_route_Route_ValueError _ _ _ _ _ H1).
    + eapply IH; [|exact H|exact He]. by eapply in_sync_add_route_Route.
Qed.

(** X8: while no template is refused by [re.compile], the routes and the
    patterns of every method stay lists of one length, whether a batch
    registers or stops at a name that is taken; one refused template makes
    the routes of its method longer than the patterns. *)
Theorem lists_in_sync_unless_refused (self self' : Router)
    (route_likes : list RouteLike) (prefix : string) (e : option exn) :
  in_sync self →
  add_routes self route_likes prefix = (self', e) →
  ((e = None ∨ ∃ msg, e = Some (ValueError msg)) → in_sync self') ∧
  (∀ route msg,
     route_likes = [Route_ route] → e = Some (re_error msg) →
     length (default [] (_routes_by_method self' !! method route))
     = S (length (default [] (_route_res_by_method self' !! method route)))).
Proof.
  intros Hs H. split.
  - rewrite add_routes_flatten_all in H. by eapply add_flat_in_sync.
  - intros route msg -> ->. simpl in H.
    destruct (add_route_Route self route prefix) as [s1 [e1|]] eqn:H1;
      [|done].
    injection H as -> ->.
    destruct (add_route_refused self self' route prefix msg H1)
      as (_ & _ & Hr & Hp & _).
    rewrite Hr, Hp. simpl. by rewrite Hs.
Qed.

Lemma in_sync_empty : in_sync Router_empty.
Proof. intros m. simpl. by rewrite !lookup_empty. Qed.

Lemma lists_in_sync_unless_refused_witness :
  in_sync router_a ∧
  length (default [] (_routes_by_method
            (add_routes Router_empty [Route_ route_bad] "").1
            !! method route_bad))
  = S (length (default [] (_route_res_by_method
                 (add_routes Router_empty [Route_ route_bad] "").1
                 !! method route_bad))).
Proof.
  split.
  - apply (lists_in_sync_unless_refused Router_empty router_a
             [Route_ route_a] "" None in_sync_empty).
    + vm_compute. reflexivity.
    + by left.
  - apply (lists_in_sync_unless_refused Router_empty
             (add_routes Router_empty [Route_ route_bad] "").1
             [Route_ route_bad] "" (Some (re_error "missing group name"))
             in_sync_empty) with (msg := "missing group name").
    + vm_compute. reflexivity.
    + reflexivity.
    + reflexivity.
Defined.

(** ** What [match] leaves as it was *)

Lemma pairs_match self m path m' :
  pairs (match_ self m path).1 m' = pairs self m'.
Proof.
  unfold match_, pairs, Py.dd_getitem.
  destruct (_routes_by_method self !! m) as [rs|] eqn:Hm;
    destruct (_route_res_by_method self !! m) as [ps|] eqn:Hr; simpl;
    try done;
    (destruct (decide (m' = m)) as [->|Hne];
     [rewrite ?lookup_insert_eq, ?Hm, ?Hr; done
     |rewrite ?lookup_insert_ne by done; done]).
Qed.

Lemma add_flat_depends_on_names flat :
  ∀ s1 s2, _routes_by_name s1 = _routes_by_name s2 →
    (add_flat s1 flat).2 = (add_flat s2 flat).2 ∧
    _routes_by_name (add_flat s1 flat).1 = _routes_by_name (add_flat s2 flat).1.
Proof.
  induction flat as [|[r q] flat IH]; intros s1 s2 Hn; [done|]. simpl.
  assert ((add_route_Route s1 r q).2 = (add_route_Route s2 r q).2 ∧
          _routes_by_name (add_route_Route s1 r q).1
          = _routes_by_name (add_route_Route s2 r q).1) as [He Hn'].
  { unfold add_route_Route. rewrite Hn.
    case_bool_decide; [done|].
    destruct (Py.dd_getitem (_route_res_by_method s1) _) as [res1 rr1].
    destruct (Py.dd_getitem (_route_res_by_method s2) _) as [res2 rr2].
    destruct (_compile_route_template _); simpl; by rewrite ?Hn. }
  destruct (add_route_Route s1 r q) as [t1 [e1|]];
    destruct (add_route_Route s2 r q) as [t2 [e2|]]; simpl in *;
    try done. by apply IH.
Qed.

(** X9: [match] may add an empty list to the two indices, and nothing
    that can be seen: the name index is the same, every later [match]
    answers what it would have answered, and every later registration
    raises what it would have raised. *)
Theorem match_changes_nothing_seen (self : Router) (m path : string) :
  _routes_by_name (match_ self m path).1 = _routes_by_name self ∧
  (∀ m' path',
     (match_ (match_ self m path).1 m' path').2 = (match_ self m' path').2) ∧
  (∀ route_likes prefix,
     (add_routes (match_ self m path).1 route_likes prefix).2
     = (add_routes self route_likes prefix).2).
Proof.
  assert (_routes_by_name (match_ self m path).1 = _routes_by_name self)
    as Hn.
  { unfold match_. by do 2 destruct (Py.dd_getitem _ _). }
  split_and!; [done| |].
  - intros m' path'. by rewrite !match_pairs, pairs_match.
  - intros route_likes prefix. rewrite !add_routes_flatten_all.
    by apply add_flat_depends_on_names.
Qed.

(** ** Groups inside groups *)

(** X10: a group inside a group registers as one group whose prefix is the
    two prefixes put together; a group with the empty prefix registers as
    its entries do; an empty group registers nothing; and a list registers
    as its first part followed, when that raised nothing, by the rest. *)
Theorem groups_compose (self : Router) (p1 p2 prefix : string)
    (routes more : list RouteLike) :
  add_route self (Include p1 [Include p2 routes]) prefix
  = add_route self (Include (p1 +:+ p2) routes) prefix ∧
  add_route self (Include "" routes) prefix = add_routes self routes prefix ∧
  add_route self (Include p1 []) prefix = (self, None) ∧
  add_routes self (routes ++ more) prefix
  = match add_routes self routes prefix with
    | (self', None) => add_routes self' more prefix
    | raised => raised
    end.
Proof.
  split_and!.
  - rewrite !add_route_Include. cbn [add_routes].
    rewrite add_route_Include, !append_assoc.
    by destruct (add_routes self routes _) as [s [e|]].
  - by rewrite add_route_Include, append_nil_r.
  - done.
  - apply add_routes_app.
Qed.

(** ** Templates that are not of the expected shape *)

Lemma split_no_sep x : no_sep x = true → Py.split sep x = [x].
Proof.
  intros Hx. rewrite <- (append_nil_r x) at 1.
  erewrite split_app_no_sep; [|done|reflexivity]. by rewrite append_nil_r.
Qed.

Lemma match_empty_pattern path :
  is_Some (Re.match_ [Re.NBol; Re.NEol] path)
  ↔ path = "" ∨ path = String Re.newline "".
Proof.
  unfold Re.match_. cbn [Re.m_seq Re.m_node].
  rewrite bool_decide_eq_true_2 by done.
  destruct (Re.at_end path) eqn:He.
  - split; [intros _; by apply at_end_inv|intros _; eauto].
  - split; [by intros [? ?]|intros [-> | ->]; by vm_compute in He].
Qed.

(** X11: the template is cut at its separators and the first part is
    thrown away, whatever it is: a template with text before its first
    separator compiles as the template without that text, and a template
    with no separator at all compiles to the pattern of the empty path. *)
Theorem text_before_first_separator_ignored (x rest : string) :
  no_sep x = true →
  _compile_route_template (x +:+ String sep rest)
  = _compile_route_template (String sep rest) ∧
  _compile_route_template x = Re.Compiled [Re.NBol; Re.NEol] ∧
  (∀ path, is_Some (Re.match_ [Re.NBol; Re.NEol] path)
           ↔ path = "" ∨ path = String Re.newline "").
Proof.
  intros Hx. split_and!.
  - unfold _compile_route_template.
    change (Py.split "/" ?t) with (Py.split sep t).
    destruct (Py.split sep rest) as [|h tl] eqn:Hrest;
      [by apply split_nonempty in Hrest|].
    rewrite (split_app_no_sep x (String sep rest) "" (h :: tl) Hx)
      by (by rewrite split_cons_sep, Hrest).
    by rewrite split_cons_sep, Hrest.
  - unfold _compile_route_template.
    change (Py.split "/" x) with (Py.split sep x).
    by rewrite split_no_sep.
  - apply match_empty_pattern.
Qed.

Lemma text_before_first_separator_ignored_witness :
  _compile_route_template ("api" +:+ String sep "users")
  = _compile_route_template (String sep "users") ∧
  _compile_route_template "api" = Re.Compiled [Re.NBol; Re.NEol] ∧
  (∀ path, is_Some (Re.match_ [Re.NBol; Re.NEol] path)
           ↔ path = "" ∨ path = String Re.newline "").
Proof.
  apply (text_before_first_separator_ignored "api" "users"). reflexivity.
Defined.

Lemma split_render_texts segs :
  forallb text_no_sep segs = true →
  Py.split sep (render segs) = "" :: map segment_text segs.
Proof.
  induction segs as [|sg segs IH]; [done|].
  intros H. simpl in H. apply andb_true_iff in H as [Hsg Hsegs].
  rewrite render_cons, split_cons_sep.
  erewrite split_app_no_sep; [|exact Hsg|by apply IH].
  by rewrite append_nil_r.
Qed.

Lemma segment_ok_text_no_sep segs :
  forallb segment_ok segs = true → forallb text_no_sep segs = true.
Proof.
  rewrite !forallb_forall. intros H sg Hin.
  by apply segment_text_no_sep, H.
Qed.

Lemma literal_nodes_groups text : Re.nodes_groups (literal_nodes text) = [].
Proof. induction text as [|c text IH]; [done|exact IH]. Qed.

Lemma template_nodes_groups segs :
  Re.nodes_groups (template_nodes segs) = Some <$> placeholders segs.
Proof.
  induction segs as [|sg segs IH]; [done|].
  rewrite template_nodes_cons, nodes_groups_app, IH.
  destruct sg as [text|name]; [|reflexivity].
  change (Re.nodes_groups (segment_nodes (Literal text)))
    with (Re.nodes_groups (literal_nodes text)).
  by rewrite literal_nodes_groups.
Qed.

Lemma placeholder_identifier segs n :
  forallb segment_ok segs = true → n ∈ placeholders segs →
  Re.isidentifier n = true.
Proof.
  intros Hok Hin. apply list_elem_of_omap in Hin as (sg & Hsg & Hn).
  destruct sg as [text|name]; [done|]. injection Hn as ->.
  rewrite forallb_forall in Hok.
  apply (Hok (Placeholder n)). by apply list_elem_of_In.
Qed.

Lemma first_group_named (l : list string) i n :
  NoDup l → l !! i = Some n →
  list_find (λ g : option string, g = Some n) (Some <$> l)
  = Some (i, Some n).
Proof.
  intros Hnd Hi. apply list_find_Some. split_and!.
  - by rewrite list_lookup_fmap, Hi.
  - done.
  - intros j y Hj Hlt ->. rewrite list_lookup_fmap in Hj.
    destruct (l !! j) as [m|] eqn:E; [|done]. simpl in Hj.
    injection Hj as ->.
    assert (j = i) by exact (NoDup_lookup _ _ _ _ Hnd E Hi). lia.
Qed.

Lemma identifier_char_repr c :
  Re.is_alpha_ c || Re.is_digit c = true →
  Re.repr_char Re.quote1 c = String c "" ∧
  bool_decide (c = Re.quote1) = false.
Proof.
  destruct c as [[] [] [] [] [] [] [] []]; vm_compute; intros H;
    first [discriminate H | split; reflexivity].
Qed.

(** [repr] of an identifier is the identifier between single quotes. *)
Lemma identifier_repr name :
  Re.isidentifier name = true →
  Re.repr name = String Re.quote1 (name +:+ String Re.quote1 "").
Proof.
  intros H. apply identifier_chars in H.
  assert (Re.occurs_str Re.quote1 name = false ∧
          Re.repr_body Re.quote1 name = name +:+ String Re.quote1 "")
    as [Hq Hb].
  { induction name as [|c name IH]; [done|].
    simpl in H. apply andb_true_iff in H as [Hc H].
    destruct (identifier_char_repr c Hc) as [Hr Hne], (IH H) as [Hq Hb].
    split.
    - simpl. by rewrite Hne, Hq.
    - change (Re.repr_body Re.quote1 (String c name))
        with (Re.repr_char Re.quote1 c +:+ Re.repr_body Re.quote1 name).
      by rewrite Hr, Hb. }
  unfold Re.repr. rewrite Hq. cbn [andb]. by rewrite Hb.
Qed.

(** The pattern text of a template with a placeholder, up to the end of
    the name of that placeholder. *)
Lemma compile_at_placeholder before name after :
  forallb segment_ok before = true →
  NoDup (placeholders before) →
  forallb text_no_sep (Placeholder name :: after) = true →
  Re.forallb_str name_char name = true →
  ∃ st rest,
    Re.p_names st = rev (placeholders before) ∧
    Re.opened st = Some <$> placeholders before ∧
    _compile_route_template (render (before ++ Placeholder name :: after)) =
    match
      match Re.close_name st name with
      | inl st' => Re.parse_from st' rest
      | inr f => inr f
      end
    with
    | inl st' => Re.finish st'
    | inr (Re.Ferror msg) => Re.error msg
    | inr Re.Funsupported => Re.Unsupported
    end.
Proof.
  intros Hok Hnd Htexts Hname.
  unfold _compile_route_template.
  change (Py.split "/" ?t) with (Py.split sep t).
  rewrite split_render_texts.
  2:{ rewrite forallb_app. by rewrite segment_ok_text_no_sep. }
  unfold Py.list_drop_first. simpl drop. rewrite drop_0.
  rewrite fold_left_append, append_nil_l, !map_app, join_app, !map_cons,
    join_cons, compile_segment_placeholder.
  unfold Re.compile.
  change ("^" +:+ ?x) with (String "^" x).
  cbn [Re.parse_from].
  change (Re.step Re.init "^")
    with (@inl Re.pstate Re.failure
            {| Re.p_mode := Re.MNormal; Re.p_cur := [Re.NBol];
               Re.p_open := []; Re.p_names := [] |}).
  cbv iota beta.
  rewrite !append_assoc, parse_from_app.
  rewrite parse_segments;
    [|done|done|done|intros n _; simpl; apply not_elem_of_nil].
  cbn [Re.p_cur Re.p_open Re.p_names Re.p_mode].
  change (">[^/]+)" +:+ ?t) with (String ">" ("[^/]+)" +:+ t)).
  rewrite parse_group_header by done.
  eexists _, _. split_and!; last reflexivity.
  - simpl. by rewrite app_nil_r.
  - unfold Re.opened, Re.push. cbn [Re.p_open Re.p_cur rev map concat].
    rewrite app_nil_l.
    change (rev (?x :: ?l)) with (rev l ++ [x]).
    rewrite rev_app_distr, rev_involutive, !nodes_groups_app.
    rewrite template_nodes_groups. simpl. by rewrite app_nil_r.
Qed.

(** X12: when the segments before it are literals of plain characters and
    placeholders whose names are identifiers, no two the same, a
    placeholder that takes the name of the [i]-th of them again makes
    [re.compile] refuse the template, whatever the segments after it: the
    message of the [re.error] gives the name, the number of the group that
    would open and the number of the group that has the name.  A route with
    such a template and a new name raises that [re.error] when it is
    registered. *)
Theorem repeated_placeholder_refused (before after : list segment)
    (name_ : string) (i : nat) :
  forallb segment_ok before = true →
  NoDup (placeholders before) →
  placeholders before !! i = Some name_ →
  forallb text_no_sep after = true →
  let msg := "redefinition of group name " +:+ Re.repr name_
             +:+ " as group "
             +:+ Re.decimal (S (length (placeholders before)))
             +:+ "; was group " +:+ Re.decimal (S i) in
  Re.repr name_ = String "'" (name_ +:+ "'") ∧
  _compile_route_template (render (before ++ Placeholder name_ :: after))
  = Re.error msg ∧
  ∀ self route prefix,
    _routes_by_name self !! name route = None →
    prefix +:+ template route
    = render (before ++ Placeholder name_ :: after) →
    (add_route self (Route_ route) prefix).2 = Some (re_error msg).
Proof.
  intros HokB Hnd Hi HokA msg.
  assert (name_ ∈ placeholders before) as Hin
    by by eapply list_elem_of_lookup_2.
  assert (Re.isidentifier name_ = true) as Hid
    by by eapply placeholder_identifier.
  destruct (compile_at_placeholder before name_ after HokB Hnd)
    as (st & rest & Hnames & Hopened & Hc).
  { change (text_no_sep (Placeholder name_) && forallb text_no_sep after
            = true).
    rewrite HokA, andb_true_r. by apply segment_text_no_sep. }
  { by apply identifier_no_gt. }
  assert (Re.close_name st name_ = inr (Re.Ferror msg)) as Hclose.
  { unfold Re.close_name.
    rewrite bool_decide_eq_false_2 by by apply identifier_not_empty.
    rewrite identifier_ascii, Hid by done. cbn [negb].
    rewrite bool_decide_eq_true_2 by (rewrite Hnames; by apply elem_of_rev).
    unfold Re.group_number.
    rewrite Hopened, (first_group_named _ i name_ Hnd Hi), length_fmap.
    reflexivity. }
  rewrite Hclose in Hc. split_and!; [by apply identifier_repr|exact Hc|].
  intros self route prefix Hfresh Ht. simpl. unfold add_route_Route.
  rewrite bool_decide_eq_false_2 by (rewrite Hfresh; by intros [? ?]).
  destruct (Py.dd_getitem _ _) as [res rr]. by rewrite Ht, Hc.
Qed.

Lemma repeated_placeholder_refused_witness :
  _compile_route_template "/{a}/{a}/(["
  = Re.error "redefinition of group name 'a' as group 2; was group 1" ∧
  _compile_route_template "/{a}/x/{b}/{a}"
  = Re.error "redefinition of group name 'a' as group 3; was group 1".
Proof.
  split.
  - apply (repeated_placeholder_refused
             [Placeholder "a"] [Literal "(["] "a" 0).
    + reflexivity.
    + apply (bool_decide_unpack _). vm_compute. exact I.
    + reflexivity.
    + reflexivity.
  - apply (repeated_placeholder_refused
             [Placeholder "a"; Literal "x"; Placeholder "b"] [] "a" 0).
    + reflexivity.
    + apply (bool_decide_unpack _). vm_compute. exact I.
    + reflexivity.
    + reflexivity.
Defined.

(** X13: when the segments before it are literals of plain characters and
    placeholders whose names are identifiers, no two the same, a
    placeholder whose name is made of ASCII characters other than the
    separator, [>] and the backslash, and is not an identifier, makes
    [re.compile] refuse the template, whatever the segments after it: an
    empty name is reported as missing, any other one as badly written, with
    the name in the message as [repr] writes it. *)
Theorem bad_placeholder_name_refused (before after : list segment)
    (name_ : string) :
  forallb segment_ok before = true →
  NoDup (placeholders before) →
  forallb text_no_sep (Placeholder name_ :: after) = true →
  Re.forallb_str name_char name_ = true →
  Re.forallb_str Re.is_ascii name_ = true →
  Re.isidentifier name_ = false →
  _compile_route_template (render (before ++ Placeholder name_ :: after))
  = Re.error (if bool_decide (name_ = "") then "missing group name"
              else "bad character in group name " +:+ Re.repr name_).
Proof.
  intros HokB Hnd Htexts Hgt Hascii Hid.
  destruct (compile_at_placeholder before name_ after HokB Hnd Htexts Hgt)
    as (st & rest & _ & _ & ->).
  unfold Re.close_name. case_bool_decide; [done|].
  by rewrite Hascii, Hid.
Qed.

Lemma bad_placeholder_name_refused_witness :
  _compile_route_template "/items/{}"
  = Re.error "missing group name" ∧
  _compile_route_template "/items/{a-b}/(["
  = Re.error "bad character in group name 'a-b'" ∧
  _compile_route_template "/{it's}"
  = Re.error (String "b" ("ad character in group name "
                          +:+ String Re.quote2 ("it's"
                          +:+ String Re.quote2 ""))).
Proof.
  split_and!.
  - apply (bad_placeholder_name_refused [Literal "items"] [] "");
      try reflexivity. apply (bool_decide_unpack _). vm_compute. exact I.
  - apply (bad_placeholder_name_refused [Literal "items"] [Literal "(["] "a-b");
      try reflexivity. apply (bool_decide_unpack _). vm_compute. exact I.
  - apply (bad_placeholder_name_refused [] [] "it's");
      try reflexivity. apply (bool_decide_unpack _). vm_compute. exact I.
Defined.

(** ** What the matcher of a well-formed template returns *)

Lemma conforms_values segs s caps :
  conforms segs s caps →
  ∀ n v, (n, v) ∈ caps →
    v ≠ "" ∧ no_sep v = true ∧ ∃ a b, s = a +:+ v +:+ b.
Proof.
  induction 1 as [|text segs rest caps Hc IH|name v0 segs rest caps Hne Hv Hc IH];
    intros n v Hin.
  - by apply elem_of_nil in Hin.
  - destruct (IH n v Hin) as (? & ? & a & b & ->). split_and!; [done|done|].
    exists (String sep (text +:+ a)), b.
    by rewrite append_cons, append_assoc.
  - apply elem_of_cons in Hin as [[= -> ->]|Hin].
    + split_and!; [done|done|]. by exists (String sep ""), rest.
    + destruct (IH n v Hin) as (? & ? & a & b & ->). split_and!; [done|done|].
      exists (String sep (v0 +:+ a)), b.
      by rewrite append_cons, append_assoc.
Qed.

(** X14: the parameters that the matcher of a well-formed template returns
    have the placeholder names of the template as their keys, no more and
    no fewer, and every value is a non-empty piece of the path, as it
    stands in the path, with no separator in it. *)
Theorem params_are_the_placeholders (segs : list segment) (p : Re.Pattern)
    (path : string) (params : Re.groupdict) :
  well_formed segs = true →
  _compile_route_template (render segs) = Re.Compiled p →
  Re.match_ p path = Some params →
  dom params =@{gset string} list_to_set (placeholders segs) ∧
  ∀ n v, params !! n = Some v →
    v ≠ "" ∧ no_sep v = true ∧ ∃ a b, path = a +:+ v +:+ b.
Proof.
  intros Hwf Hc Hm.
  destruct (match_well_formed segs Hwf) as (p' & Hc' & Hiff).
  assert (p' = p) as -> by congruence.
  apply Hiff in Hm as (caps & -> & H).
  assert (∃ s, conforms segs s caps ∧
               ∀ v, (∃ a b, s = a +:+ v +:+ b) → ∃ a b, path = a +:+ v +:+ b)
    as (s & Hs & Hsub).
  { destruct H as [H|(_ & s' & -> & H)].
    - exists path. by split.
    - exists s'. split; [done|]. intros v (a & b & ->).
      exists a, (b +:+ String Re.newline ""). by rewrite !append_assoc. }
  split.
  - rewrite dom_list_to_map_L. by rewrite (conforms_names _ _ _ Hs).
  - intros n v Hn. apply elem_of_list_to_map_2 in Hn.
    destruct (conforms_values _ _ _ Hs n v Hn) as (? & ? & Hab). auto.
Qed.

Lemma params_are_the_placeholders_witness :
  dom ({[ "name" := "a-b" ]} : Re.groupdict)
  =@{gset string} list_to_set (placeholders [Literal "items"; Placeholder "name"]) ∧
  ∀ n v, ({[ "name" := "a-b" ]} : Re.groupdict) !! n = Some v →
    v ≠ "" ∧ no_sep v = true ∧ ∃ a b, "/items/a-b" = a +:+ v +:+ b.
Proof.
  apply (params_are_the_placeholders [Literal "items"; Placeholder "name"]
           items_pattern "/items/a-b" {[ "name" := "a-b" ]});
    vm_compute; reflexivity.
Defined.

Lemma ends_with_placeholder_has_one segs :
  ends_with_placeholder segs = true → placeholders segs ≠ [].
Proof.
  induction segs as [|sg segs IH]; [done|].
  destruct segs as [|sg' segs].
  - by destruct sg.
  - rewrite ends_with_placeholder_cons. intros H. specialize (IH H).
    destruct sg; [done|]. done.
Qed.

Lemma conforms_static segs s caps :
  placeholders segs = [] →
  conforms segs s caps ↔ s = render segs ∧ caps = [].
Proof.
  intros Hp. split.
  - induction 1 as [|text segs rest caps Hc IH|name v segs rest caps _ _ _ _];
      [done| |done].
    destruct (IH Hp) as [-> ->]. by rewrite render_cons.
  - intros [-> ->]. induction segs as [|[text|name] segs IH];
      [constructor| |done].
    rewrite render_cons. constructor. by apply IH.
Qed.

(** X15: a well-formed template without a placeholder is matched by
    itself, by itself followed by one newline, and by no other path, and
    the parameters are empty. *)
Theorem static_template_matches_itself (segs : list segment) (p : Re.Pattern)
    (path : string) (params : Re.groupdict) :
  well_formed segs = true →
  placeholders segs = [] →
  _compile_route_template (render segs) = Re.Compiled p →
  Re.match_ p path = Some params ↔
  params = ∅ ∧
  (path = render segs ∨ path = render segs +:+ String Re.newline "").
Proof.
  intros Hwf Hp Hc.
  destruct (match_well_formed segs Hwf) as (p' & Hc' & Hiff).
  assert (p' = p) as -> by congruence.
  rewrite Hiff. unfold accepts. split.
  - intros (caps & -> & [H|(_ & s' & -> & H)]);
      apply (conforms_static _ _ _ Hp) in H as [-> ->]; auto.
  - intros [-> H]. exists []. split; [done|].
    destruct H as [-> | ->].
    + left. by apply conforms_static.
    + right. split.
      * destruct (ends_with_placeholder segs) eqn:He; [|done].
        by apply ends_with_placeholder_has_one in He.
      * eexists. split; [done|]. by apply conforms_static.
Qed.

Lemma static_template_matches_itself_witness :
  Re.match_ x_pattern "/x" = Some ∅ ↔
  (∅ : Re.groupdict) = ∅ ∧
  ("/x" = render [Literal "x"]
   ∨ "/x" = render [Literal "x"] +:+ String Re.newline "").
Proof.
  apply (static_template_matches_itself [Literal "x"] x_pattern "/x" ∅);
    reflexivity.
Defined.

(** X16: a path that the matcher of a well-formed template accepts has as
    many separators as the template has segments; so the same path with one
    more separator at its end is not accepted: a trailing separator is not
    put aside. *)
Theorem one_separator_per_segment (segs : list segment) (p : Re.Pattern)
    (path : string) :
  well_formed segs = true →
  _compile_route_template (render segs) = Re.Compiled p →
  is_Some (Re.match_ p path) →
  count_sep path = length segs ∧
  Re.match_ p (path +:+ String sep "") = None.
Proof.
  intros Hwf Hc Hm.
  pose proof Hwf as [Hok _]%andb_true_iff.
  rewrite compile_render in Hc by done. injection Hc as <-.
  rewrite match_template_nodes in *.
  destruct Hm as [params Hm].
  pose proof (walk_count _ _ _ _ Hok Hm) as Hcount. split; [done|].
  destruct (walk segs (path +:+ String sep "") ∅) as [params'|] eqn:Hw;
    [|done].
  apply (walk_count _ _ _ _ Hok) in Hw.
  rewrite count_sep_append in Hw. simpl in Hw. lia.
Qed.

Lemma one_separator_per_segment_witness :
  count_sep "/items/a-b" = length [Literal "items"; Placeholder "name"] ∧
  Re.match_ items_pattern ("/items/a-b" +:+ String sep "") = None.
Proof.
  apply (one_separator_per_segment [Literal "items"; Placeholder "name"]
           items_pattern "/items/a-b").
  - reflexivity.
  - vm_compute. reflexivity.
  - eexists. vm_compute. reflexivity.
Defined.

(** X17: a route with a new name whose prefix and template make a
    well-formed template registers; afterwards every path that the
    template accepts is answered, for the method of the route, with that
    route and the parameters of the path, and every other path as
    before. *)
Theorem well_formed_route_registers (self : Router) (route : Route)
    (prefix : string) (segs : list segment) :
  _routes_by_name self !! name route = None →
  prefix +:+ template route = render segs →
  well_formed segs = true →
  ∃ self', add_route self (Route_ route) prefix = (self', None) ∧
    (∀ path params, accepts segs path params →
       (match_ self' (method route) path).2 = Some (route, params)) ∧
    (∀ path, (∀ params, ¬ accepts segs path params) →
       (match_ self' (method route) path).2
       = (match_ self (method route) path).2).
Proof.
  intros Hfresh Ht Hwf.
  destruct (match_well_formed segs Hwf) as (p & Hc & Hiff).
  destruct (add_route_Route_compiled self route prefix p Hfresh) as [self' H];
    [by rewrite Ht|].
  exists self'. split; [exact H|].
  destruct (pairs_add_route_Route _ _ _ _ H) as (p' & Hc' & Hp & _).
  assert (p' = p) as -> by congruence.
  split.
  - intros path params Ha%Hiff. rewrite match_pairs, Hp. simpl.
    by rewrite Ha.
  - intros path Hno. rewrite !match_pairs, Hp. simpl.
    destruct (Re.match_ p path) as [params|] eqn:Hm; [|done].
    apply Hiff in Hm. by destruct (Hno params).
Qed.

Lemma well_formed_route_registers_witness :
  ∃ self', add_route Router_empty (Route_ route_user) "/v1" = (self', None) ∧
    (∀ path params,
       accepts [Literal "v1"; Literal "users"; Placeholder "id"] path params →
       (match_ self' (method route_user) path).2 = Some (route_user, params)) ∧
    (∀ path,
       (∀ params,
          ¬ accepts [Literal "v1"; Literal "users"; Placeholder "id"]
                    path params) →
       (match_ self' (method route_user) path).2
       = (match_ Router_empty (method route_user) path).2).
Proof.
  apply (well_formed_route_registers Router_empty route_user "/v1"
           [Literal "v1"; Literal "users"; Placeholder "id"]);
    reflexivity.
Defined.

(** ** Reading query parameters *)

Lemma getitem_values (self : QueryParams.t) (n n' : string) :
  default [] (QueryParams._data (QueryParams.__getitem__ self n).1 !! n')
  = default [] (QueryParams._data self !! n').
Proof.
  unfold QueryParams.__getitem__, Py.dd_getitem.
  destruct (QueryParams._data self !! n) as [values|] eqn:Hn.
  - by destruct (last values).
  - simpl. destruct (decide (n' = n)) as [->|Hne].
    + by rewrite lookup_insert_eq, Hn.
    + by rewrite lookup_insert_ne.
Qed.

Lemma getitem_by_values (s1 s2 : QueryParams.t) (n : string) :
  default [] (QueryParams._data s1 !! n)
  = default [] (QueryParams._data s2 !! n) →
  (QueryParams.__getitem__ s1 n).2 = (QueryParams.__getitem__ s2 n).2.
Proof.
  unfold QueryParams.__getitem__, Py.dd_getitem.
  destruct (QueryParams._data s1 !! n) as [v1|];
    destruct (QueryParams._data s2 !! n) as [v2|]; simpl; intros H;
    subst; simpl; try done; by destruct (last _).
Qed.

Lemma get_state (self : QueryParams.t) (n : string) (d : option string) :
  (QueryParams.get self n d).1 = (QueryParams.__getitem__ self n).1.
Proof.
  unfold QueryParams.get.
  by destruct (QueryParams.__getitem__ self n) as [s [v|[m]]].
Qed.

Lemma get_by_getitem (self : QueryParams.t) (n : string) (d : option string) :
  (QueryParams.get self n d).2 =
  match (QueryParams.__getitem__ self n).2 with
  | inl v => Some v
  | inr _ => d
  end.
Proof.
  unfold QueryParams.get.
  by destruct (QueryParams.__getitem__ self n) as [s [v|[m]]].
Qed.

(** X18: reading a parameter, with [get] or with an index, may bind a
    missing key to the empty list, and changes no later answer: every key
    reads afterwards as it would have read before, missing keys included,
    and a key with values keeps them. *)
Theorem reads_change_no_answer (self : QueryParams.t) (n n' : string)
    (d d' : option string) :
  (QueryParams.__getitem__ (QueryParams.__getitem__ self n).1 n').2
  = (QueryParams.__getitem__ self n').2 ∧
  (QueryParams.get (QueryParams.get self n d).1 n' d').2
  = (QueryParams.get self n' d').2 ∧
  (QueryParams.__getitem__ (QueryParams.get self n d).1 n').2
  = (QueryParams.__getitem__ self n').2 ∧
  default [] (QueryParams._data (QueryParams.get self n d).1 !! n')
  = default [] (QueryParams._data self !! n').
Proof.
  split_and!.
  - apply getitem_by_values, getitem_values.
  - rewrite !get_by_getitem, get_state.
    by rewrite (getitem_by_values _ self n' (getitem_values self n n')).
  - rewrite get_state. apply getitem_by_values, getitem_values.
  - rewrite get_state. apply getitem_values.
Qed.

(** ** The name index and the routes of the methods *)

Lemma indexed_add_route_Route self route prefix :
  indexed self → indexed (add_route_Route self route prefix).1.
Proof.
  intros Hi. unfold add_route_Route.
  case_bool_decide as Hn; [done|]. apply eq_None_not_Some in Hn.
  destruct (Py.dd_getitem (_route_res_by_method self) _) as [res rr].
  assert (indexed
            {| _routes_by_name := <[name route := route]> (_routes_by_name self);
               _routes_by_method :=
                 Py.dd_insert_front (_routes_by_method self) (method route) route;
               _route_res_by_method := res |}) as Hgoal.
  { intros m routes r. simpl. unfold Py.dd_insert_front, Py.dd_getitem.
    assert (∀ rs, _routes_by_method self !! m = Some rs → r ∈ rs →
                  <[name route := route]> (_routes_by_name self) !! name r
                  = Some r) as Hold.
    { intros rs Hrs Hr. pose proof (Hi _ _ _ Hrs Hr) as Hl.
      rewrite lookup_insert_ne; [done|]. intros Heq. congruence. }
    destruct (_routes_by_method self !! method route) as [rs|] eqn:Hm;
      rewrite ?insert_insert_eq;
      (destruct (decide (m = method route)) as [->|Hne];
       [rewrite lookup_insert_eq; intros [= <-]
       |rewrite lookup_insert_ne by done; apply Hold]).
    - intros [->|Hr]%elem_of_cons; [apply lookup_insert_eq|by eapply Hold].
    - intros ->%list_elem_of_singleton. apply lookup_insert_eq. }
  destruct (_compile_route_template _); exact Hgoal.
Qed.

Lemma indexed_match self m path : indexed self → indexed (match_ self m path).1.
Proof.
  intros Hi. unfold match_, Py.dd_getitem.
  destruct (_routes_by_method self !! m) eqn:Hm;
    destruct (_route_res_by_method self !! m); simpl; try exact Hi;
    intros m' routes r; simpl;
    (destruct (decide (m' = m)) as [->|Hne];
     [rewrite lookup_insert_eq; intros [= <-]; by intros ?%elem_of_nil
     |rewrite lookup_insert_ne by done; apply Hi]).
Qed.

Lemma built_indexed self : built self → indexed self.
Proof.
  induction 1.
  - intros m routes r. simpl. by rewrite lookup_empty.
  - apply add_route_preserves; [|done].
    intros; by apply indexed_add_route_Route.
  - apply add_routes_preserves; [|done].
    intros; by apply indexed_add_route_Route.
  - by apply indexed_match.
Qed.

(** X19: on every router that registrations and matches can make, whether
    they raised or not, the route that [match] returns is the one that the
    name index holds under its name. *)
Theorem matched_route_is_indexed (self : Router) (m path : string)
    (route : Route) (params : Re.groupdict) :
  built self →
  (match_ self m path).2 = Some (route, params) →
  _routes_by_name self !! name route = Some route.
Proof.
  intros Hb H. rewrite match_pairs in H.
  apply first_match_In in H as [p Hp]. apply elem_of_zip_l in Hp.
  pose proof (built_indexed _ Hb m) as Hi.
  destruct (_routes_by_method self !! m) as [rs|]; simpl in Hp.
  - by apply (Hi rs).
  - by apply elem_of_nil in Hp.
Qed.

Lemma matched_route_is_indexed_witness :
  _routes_by_name router_bad !! name route_bad = Some route_bad.
Proof.
  apply (matched_route_is_indexed router_bad "GET" "/x" route_bad ∅).
  - apply built_add_route, built_add_routes, built_empty.
  - vm_compute. reflexivity.
Defined.
